(** * ahk.keys: hotkey / hotstring registration and context scoping

    A shallow embedding of [src/ahk/keys.py].  Python functions that talk to
    the AutoHotkey engine through [_ahk.call] are written once, as programs
    over the atomic actions they perform (engine calls, lock acquisition and
    release).  The programs are then given two readings: a sequential one
    ([run], one thread against an engine oracle) and an interleaving one
    ([Threads.step_thread], several threads sharing [BaseHotkeyContext._lock]). *)

From Stdlib Require Import ZArith String Ascii List Bool Lia DecimalString DecimalZ DecimalPos.
Import ListNotations.
Local Open Scope string_scope.
Local Open Scope list_scope.

(* ================================================================== *)
(** ** Python values, truthiness, exceptions *)
(* ================================================================== *)

(** The Python objects that flow through [keys.py]: [None], booleans,
    integers, strings, and callables (identified by name; their bodies never
    matter to the registration code, which only passes them on). *)
Inductive value : Type :=
| VNone
| VBool (b : bool)
| VInt (z : Z)
| VStr (s : string)
| VFunc (name : string).

(** [bool(x)] / the test of an [if x:]. *)
Definition truthy (v : value) : bool :=
  match v with
  | VNone => false
  | VBool b => b
  | VInt z => negb (Z.eqb z 0)
  | VStr s => negb (String.eqb s "")
  | VFunc _ => true
  end.

(** [x is None]. *)
Definition is_None (v : value) : bool :=
  match v with VNone => true | _ => false end.

(** [callable(x)]. *)
Definition callable (v : value) : bool :=
  match v with VFunc _ => true | _ => false end.

(** [x or y]. *)
Definition py_or (x y : value) : value := if truthy x then x else y.

(** [x == ""]: only the empty string compares equal to the empty string. *)
Definition eq_empty_str (v : value) : bool :=
  match v with VStr s => String.eqb s "" | _ => false end.

(** Exceptions raised by the module or coming out of the engine ([Error] is
    [_ahk.Error]).  [TypeError_not_callable obj] stands for
    [TypeError(f"object {obj!r} must be callable")], [TypeError msg] for the
    ones the interpreter raises itself. *)
Inductive exn : Type :=
| Error (msg : string)
| ValueError (msg : string)
| TypeError_not_callable (obj : value)
| TypeError (msg : string).

Inductive outcome (A : Type) : Type :=
| Returned (a : A)
| Raised (e : exn).
Arguments Returned {A} a.
Arguments Raised {A} e.

Definition is_raised {A} (r : outcome A) : bool :=
  match r with Raised _ => true | Returned _ => false end.

(** Optional keyword arguments: [None] or a value of the annotated type. *)
Definition opt_truthy (o : option bool) : bool :=
  match o with Some true => true | _ => false end.

Definition is_not_None {A} (o : option A) : bool :=
  match o with Some _ => true | None => false end.

(** [x is False]. *)
Definition is_False (o : option bool) : bool :=
  match o with Some false => true | _ => false end.

(** [def DEFAULT(value): return None] *)
Definition DEFAULT {A} (value : A) : option A := None.

(** [f"{n}"] for an integer. *)
Definition format_int (n : Z) : string := NilZero.string_of_int (Z.to_int n).

(** ["".join(options)] *)
Definition join (options : list string) : string := String.concat "" options.

(** [str.lower].  A string is the sequence of the bytes of its UTF-8
    encoding.  The letters [A]..[Z] are mapped to [a]..[z], and the Kelvin
    sign U+212A, whose encoding is the three bytes [E2 84 AA], to [k]:
    these are the only characters whose lower case is made of ASCII
    characters and differs from them.  Every other character is kept as it
    is (its lower case, changed or not, is not ASCII), so that the result is
    a given ASCII word exactly when [str.lower] returns that word. *)
Definition lower_ascii (c : ascii) : ascii :=
  let n := N_of_ascii c in
  if (N.leb 65 n && N.leb n 90)%bool then ascii_of_N (n + 32) else c.

Fixpoint lower (s : string) : string :=
  match s with
  | EmptyString => EmptyString
  | String c s' =>
      match s' with
      | String c2 (String c3 rest) =>
          if (Ascii.eqb c "226" && Ascii.eqb c2 "132" && Ascii.eqb c3 "170")%bool
          then String "k" (lower rest)
          else String (lower_ascii c) (lower s')
      | _ => String (lower_ascii c) (lower s')
      end
  end.

(** Whether a string starts with the last two bytes of the Kelvin sign, and
    what follows them. *)
Definition kelvin_tail (s : string) : bool :=
  match s with
  | String c2 (String c3 _) => (Ascii.eqb c2 "132" && Ascii.eqb c3 "170")%bool
  | _ => false
  end.

Definition after_kelvin_tail (s : string) : string :=
  match s with
  | String _ (String _ rest) => rest
  | _ => EmptyString
  end.

(** [x in (a, b, ...)] for strings. *)
Fixpoint str_in (x : string) (xs : list string) : bool :=
  match xs with
  | [] => false
  | y :: ys => String.eqb x y || str_in x ys
  end.

(* ================================================================== *)
(** ** Programs over engine calls and the registration lock *)
(* ================================================================== *)

(** A Python callable handed to the engine, seen from the engine's side. *)
Definition pyfun : Type := list value -> outcome value.

Inductive arg : Type :=
| AVal (v : value)
| AFun (f : pyfun).

Definition AStr (s : string) : arg := AVal (VStr s).

(** [_ahk.call(cmd, *args)] *)
Record call : Type := Call { cmd : string; args : list arg }.

Inductive action : Type :=
| Acquire               (* BaseHotkeyContext._lock.acquire() *)
| Release               (* BaseHotkeyContext._lock.release() *)
| Ahk (c : call).       (* _ahk.call(...) *)

(** A program performs actions one after the other and ends by returning or
    by raising.  The continuation of an action receives what the action
    answered. *)
Inductive prog (A : Type) : Type :=
| Ret (a : A)
| Raise (e : exn)
| Act (a : action) (k : outcome value -> prog A).
Arguments Ret {A} a.
Arguments Raise {A} e.
Arguments Act {A} a k.

Fixpoint bind {A B} (p : prog A) (f : A -> prog B) : prog B :=
  match p with
  | Ret a => f a
  | Raise e => Raise e
  | Act a k => Act a (fun r => bind (k r) f)
  end.

Notation "x <- p ;; q" := (bind p (fun x => q))
  (at level 61, p at next level, right associativity).
Notation "p ;; q" := (bind p (fun _ => q))
  (at level 61, right associativity).

(** [try: body finally: fin] -- [fin] runs on every exit of [body]; an
    exception raised by [fin] replaces the pending result. *)
Fixpoint try_finally {A} (body : prog A) (fin : prog unit) : prog A :=
  match body with
  | Ret a => fin ;; Ret a
  | Raise e => fin ;; Raise e
  | Act a k => Act a (fun r => try_finally (k r) fin)
  end.

(** [_ahk.call(cmd, *args)]: an exception of the engine propagates. *)
Definition ahk_call (name : string) (xs : list arg) : prog value :=
  Act (Ahk (Call name xs))
      (fun r => match r with Returned v => Ret v | Raised e => Raise e end).

Definition lock_acquire : prog unit := Act Acquire (fun _ => Ret tt).
Definition lock_release : prog unit := Act Release (fun _ => Ret tt).

(** [with BaseHotkeyContext._lock: body] *)
Definition with_lock {A} (body : prog A) : prog A :=
  lock_acquire ;; try_finally body lock_release.

(** *** Sequential reading *)

(** What one thread leaves behind: the engine calls issued so far, oldest
    first, and how many times the thread holds the (re-entrant) lock. *)
Record world : Type := World { trace : list call; lock_depth : nat }.

(** The engine, as an oracle: its answer to a call may depend on every call
    issued before. *)
Definition dispatcher : Type := list call -> call -> outcome value.

Fixpoint run {A} (d : dispatcher) (p : prog A) (w : world) : world * outcome A :=
  match p with
  | Ret a => (w, Returned a)
  | Raise e => (w, Raised e)
  | Act Acquire k =>
      run d (k (Returned VNone)) (World (trace w) (S (lock_depth w)))
  | Act Release k =>
      run d (k (Returned VNone)) (World (trace w) (pred (lock_depth w)))
  | Act (Ahk c) k =>
      run d (k (d (trace w) c)) (World (trace w ++ [c]) (lock_depth w))
  end.

Definition calls_of {A} (d : dispatcher) (p : prog A) (w : world) : list call :=
  trace (fst (run d p w)).

Definition result_of {A} (d : dispatcher) (p : prog A) (w : world) : outcome A :=
  snd (run d p w).

Definition initial : world := World [] 0.

(* ================================================================== *)
(** ** Key state queries *)
(* ================================================================== *)

(** [mode=None] and the mode letters are passed on as they are. *)
Definition mode_arg (mode : option string) : arg :=
  match mode with None => AVal VNone | Some m => AStr m end.

Definition _get_key_state (key_name : string) (mode : option string) : prog value :=
  result <- ahk_call "GetKeyState" [AStr key_name; mode_arg mode] ;;
  if eq_empty_str result then
    Raise (ValueError "key_name is invalid or the state of the key could not be determined")
  else
    Ret (VBool (truthy result)).

Definition get_key_state (key_name : string) : prog value :=
  _get_key_state key_name None.

Definition get_physical_key_state (key_name : string) : prog value :=
  _get_key_state key_name (Some "P").

Definition toggle_keys : list string :=
  ["capslock"; "numlock"; "scrolllock"; "insert"; "ins"].

Definition is_key_toggled (key_name : string) : prog value :=
  if negb (str_in (lower key_name) toggle_keys) then
    Raise (ValueError "key_name must be one of CapsLock, NumLock, ScrollLock, or Insert")
  else
    _get_key_state key_name (Some "T").

(* ================================================================== *)
(** ** Hotkey contexts *)
(* ================================================================== *)

(** A user predicate handed to [HotkeyContext]: what
    [inspect.signature(predicate).parameters] counts, and what calling it with
    a list of positional arguments does. *)
Record user_predicate : Type := UserPredicate {
  parameters : nat;
  invoke : pyfun
}.

(** [bool(f(...))]: the coercion applies to what [f] returned; if [f] raised,
    so does the whole expression. *)
Definition bool_of (r : outcome value) : outcome value :=
  match r with
  | Returned v => Returned (VBool (truthy v))
  | Raised e => Raised e
  end.

(** The [wrapper] closures of [HotkeyContext.__init__]. *)
Definition wrapper (predicate : user_predicate) : pyfun :=
  if Nat.eqb (parameters predicate) 0 then
    fun _args => bool_of (invoke predicate [])
  else
    fun args => bool_of (invoke predicate args).

(** [BaseHotkeyContext] has no field; [HotkeyContext] has one, [predicate]. *)
Inductive BaseHotkeyContext : Type :=
| default_context
| HotkeyContext_ (predicate : pyfun).

(** [HotkeyContext(predicate)]: the stored field is the wrapper. *)
Definition HotkeyContext (predicate : user_predicate) : BaseHotkeyContext :=
  HotkeyContext_ (wrapper predicate).

Definition _enter (self : BaseHotkeyContext) : prog unit :=
  match self with
  | default_context => Ret tt
  | HotkeyContext_ predicate => ahk_call "HotkeyContext" [AFun predicate] ;; Ret tt
  end.

Definition _exit (self : BaseHotkeyContext) : prog unit :=
  match self with
  | default_context => Ret tt
  | HotkeyContext_ _ => ahk_call "HotkeyExitContext" [] ;; Ret tt
  end.

(* ================================================================== *)
(** ** Hotkeys and hotstrings *)
(* ================================================================== *)

Module SendMode.
Definition INPUT : string := "input".
Definition PLAY : string := "play".
Definition EVENT : string := "event".
End SendMode.

Record Hotkey : Type := MkHotkey {
  key_name : string;
  hk_context : BaseHotkeyContext
}.

Record Hotstring : Type := MkHotstring {
  string_ : string;
  hs_context : BaseHotkeyContext
}.

(** Keyword arguments of [hotkey] / [Hotkey.update] other than [func]. *)
Record hotkey_options : Type := HotkeyOptions {
  buffer : option bool;
  priority : option Z;
  max_threads : option Z;
  input_level : option Z
}.

(** Keyword arguments of [hotstring] / [Hotstring.update] other than
    [replacement]. *)
Record hotstring_options : Type := HotstringOptions {
  wait_for_end_char : option bool;
  replace_inside_word : option bool;
  backspacing : option bool;
  case_sensitive : option bool;
  conform_to_case : option bool;
  key_delay : option Z;
  omit_end_char : option bool;
  hs_priority : option Z;
  raw : option bool;
  text : option bool;
  mode : option string;
  reset_recognizer : option bool
}.

(** The option string built at the top of [Hotkey.update]. *)
Definition hotkey_option_str (o : hotkey_options) : string :=
  let options : list string := [] in
  let options :=
    if opt_truthy (buffer o) then options ++ ["B"]
    else if is_not_None (buffer o) then options ++ ["B0"]
    else options in
  let options :=
    match priority o with
    | Some n => options ++ [("P" ++ format_int n)%string]
    | None => options
    end in
  let options :=
    match max_threads o with
    | Some n => options ++ [("T" ++ format_int n)%string]
    | None => options
    end in
  let options :=
    match input_level o with
    | Some n => options ++ [("I" ++ format_int n)%string]
    | None => options
    end in
  join options.

(** The option string built at the top of [Hotstring.update]. *)
Definition hotstring_option_str (o : hotstring_options) : string :=
  let options : list string := [] in
  let options :=
    if is_False (wait_for_end_char o) then options ++ ["*"]
    else if opt_truthy (omit_end_char o) then (options ++ ["*0"]) ++ ["O"]
    else
      let options :=
        if opt_truthy (wait_for_end_char o) then options ++ ["*0"] else options in
      if is_False (omit_end_char o) then options ++ ["O0"] else options in
  let options :=
    if opt_truthy (replace_inside_word o) then options ++ ["?"]
    else if is_not_None (replace_inside_word o) then options ++ ["?0"]
    else options in
  let options :=
    if opt_truthy (backspacing o) then options ++ ["B"]
    else if is_not_None (backspacing o) then options ++ ["B0"]
    else options in
  let options :=
    if opt_truthy (conform_to_case o) then options ++ ["C1"]
    else if opt_truthy (case_sensitive o) then options ++ ["C"]
    else if is_not_None (case_sensitive o) || is_not_None (conform_to_case o)
         then options ++ ["C0"]
    else options in
  let options :=
    match key_delay o with
    | Some n => options ++ [("K" ++ format_int n)%string]
    | None => options
    end in
  let options :=
    match hs_priority o with
    | Some n => options ++ [("P" ++ format_int n)%string]
    | None => options
    end in
  let options :=
    if opt_truthy (text o) then options ++ ["T"]
    else if opt_truthy (raw o) then options ++ ["R"]
    else if is_not_None (raw o) || is_not_None (text o) then options ++ ["R0"]
    else options in
  let mode := option_map lower (mode o) in
  let options :=
    match mode with
    | Some m =>
        if String.eqb m SendMode.INPUT then options ++ ["SI"]
        else if String.eqb m SendMode.PLAY then options ++ ["SP"]
        else if String.eqb m SendMode.EVENT then options ++ ["SE"]
        else options
    | None => options
    end in
  let options :=
    if opt_truthy (reset_recognizer o) then options ++ ["Z"]
    else if is_not_None (reset_recognizer o) then options ++ ["Z0"]
    else options in
  join options.

Section Keys.

(** [hash(self.context)]: the hash of a frozen dataclass instance, left to
    the Python runtime. *)
Variable hash : BaseHotkeyContext -> Z.

Definition Hotkey_enable (self : Hotkey) : prog unit :=
  ahk_call "HotkeySpecial" [AStr (key_name self); AStr "On"] ;; Ret tt.

Definition Hotkey_disable (self : Hotkey) : prog unit :=
  ahk_call "HotkeySpecial" [AStr (key_name self); AStr "Off"] ;; Ret tt.

Definition Hotkey_toggle (self : Hotkey) : prog unit :=
  ahk_call "HotkeySpecial" [AStr (key_name self); AStr "Toggle"] ;; Ret tt.

(** The engine call issued by [Hotkey.update]. *)
Definition Hotkey_call (self : Hotkey) (func : value) (o : hotkey_options) : call :=
  Call "Hotkey"
       [AVal (VInt (hash (hk_context self))); AStr (key_name self);
        AVal (py_or func (VStr "")); AStr (hotkey_option_str o)].

Definition Hotkey_update (self : Hotkey) (func : value) (o : hotkey_options)
  : prog unit :=
  let option_str := hotkey_option_str o in
  let context_hash := hash (hk_context self) in
  with_lock (
    _enter (hk_context self) ;;
    try_finally
      (ahk_call "Hotkey"
         [AVal (VInt context_hash); AStr (key_name self);
          AVal (py_or func (VStr "")); AStr option_str] ;; Ret tt)
      (_exit (hk_context self))).

Definition Hotstring_disable (self : Hotstring) : prog unit :=
  ahk_call "Hotstring" [AStr (string_ self); AStr ""; AStr "Off"] ;; Ret tt.

Definition Hotstring_enable (self : Hotstring) : prog unit :=
  ahk_call "Hotstring" [AStr (string_ self); AStr ""; AStr "On"] ;; Ret tt.

Definition Hotstring_toggle (self : Hotstring) : prog unit :=
  ahk_call "Hotstring" [AStr (string_ self); AStr ""; AStr "Toggle"] ;; Ret tt.

(** The engine call issued by [Hotstring.update]. *)
Definition Hotstring_call (self : Hotstring) (replacement : value)
           (o : hotstring_options) : call :=
  Call "Hotstring"
       [AStr (":" ++ hotstring_option_str o ++ ":" ++ string_ self)%string;
        AVal (py_or replacement (VStr ""))].

Definition Hotstring_update (self : Hotstring) (replacement : value)
           (o : hotstring_options) : prog unit :=
  let option_str := hotstring_option_str o in
  with_lock (
    _enter (hs_context self) ;;
    try_finally
      (ahk_call "Hotstring"
         [AStr (":" ++ option_str ++ ":" ++ string_ self)%string;
          AVal (py_or replacement (VStr ""))] ;; Ret tt)
      (_exit (hs_context self))).

(** *** The factories [BaseHotkeyContext.hotkey] and [.hotstring] *)

(** [functools.partial(self.hotkey, key_name, buffer=..., ...)] and
    [functools.partial(self.hotstring, string, ...)]: the factory with the
    arguments given so far, waiting for the callback. *)
Record hotkey_partial : Type := HotkeyPartial {
  hkp_self : BaseHotkeyContext;
  hkp_key_name : string;
  hkp_options : hotkey_options
}.

Record hotstring_partial : Type := HotstringPartial {
  hsp_self : BaseHotkeyContext;
  hsp_string : string;
  hsp_options : hotstring_options
}.

(** What a factory returns: the trigger object, or the decorator when the
    callback is left out. *)
Inductive hotkey_result : Type :=
| HotkeyDecorator (d : hotkey_partial)
| HotkeyObject (hk : Hotkey).

Inductive hotstring_result : Type :=
| HotstringDecorator (d : hotstring_partial)
| HotstringObject (hs : Hotstring).

(** The keyword defaults of the two factories. *)
Definition hotkey_defaults : hotkey_options :=
  HotkeyOptions (DEFAULT false) (DEFAULT 0%Z) (DEFAULT 1%Z) (DEFAULT 0%Z).

Definition hotstring_defaults : hotstring_options :=
  HotstringOptions (DEFAULT true) (DEFAULT false) (DEFAULT true) (DEFAULT false)
                   (DEFAULT false) None (DEFAULT false) (DEFAULT 0%Z)
                   (DEFAULT false) (DEFAULT false) (DEFAULT SendMode.INPUT)
                   (DEFAULT false).

Definition hotkey (self : BaseHotkeyContext) (key_name : string) (func : value)
           (o : hotkey_options) : prog hotkey_result :=
  if String.eqb key_name "" then Raise (Error "invalid key name")
  else if is_None func then Ret (HotkeyDecorator (HotkeyPartial self key_name o))
  else if negb (callable func) then Raise (TypeError_not_callable func)
  else
    let hk := MkHotkey key_name self in
    Hotkey_update hk func o ;;
    Ret (HotkeyObject hk).

Definition hotstring (self : BaseHotkeyContext) (string : string)
           (replacement : value) (o : hotstring_options) : prog hotstring_result :=
  if is_None replacement then
    Ret (HotstringDecorator (HotstringPartial self string o))
  else
    let hs := MkHotstring string self in
    Hotstring_update hs replacement o ;;
    Ret (HotstringObject hs).

(** Calling the decorator with the callback completes the call. *)
Definition call_hotkey_partial (d : hotkey_partial) (func : value)
  : prog hotkey_result :=
  hotkey (hkp_self d) (hkp_key_name d) func (hkp_options d).

Definition call_hotstring_partial (d : hotstring_partial) (replacement : value)
  : prog hotstring_result :=
  hotstring (hsp_self d) (hsp_string d) replacement (hsp_options d).

(** *** Remapped keys *)

Record RemappedKey : Type := MkRemappedKey {
  wildcard_origin : Hotkey;
  wildcard_origin_up : Hotkey
}.

Definition RemappedKey_enable (self : RemappedKey) : prog unit :=
  Hotkey_enable (wildcard_origin self) ;;
  Hotkey_enable (wildcard_origin_up self).

Definition RemappedKey_disable (self : RemappedKey) : prog unit :=
  Hotkey_disable (wildcard_origin self) ;;
  Hotkey_disable (wildcard_origin_up self).

Definition RemappedKey_toggle (self : RemappedKey) : prog unit :=
  Hotkey_toggle (wildcard_origin self) ;;
  Hotkey_toggle (wildcard_origin_up self).

(** [@hotkey(key_name) def f(): ...] inside [remap_key], where [hotkey] is
    the factory of the default context: the factory is called without a
    callback, and what it returns is called with [f].  The name [f] is then
    bound to the result, which [RemappedKey] takes as a [Hotkey]. *)
Definition decorate_hotkey (key_name : string) (func : value) : prog Hotkey :=
  r <- hotkey default_context key_name VNone hotkey_defaults ;;
  match r with
  | HotkeyDecorator d =>
      r' <- call_hotkey_partial d func ;;
      match r' with
      | HotkeyObject hk => Ret hk
      | HotkeyDecorator _ => Raise (TypeError "not a Hotkey")
      end
  | HotkeyObject _ => Raise (TypeError "'Hotkey' object is not callable")
  end.

Definition remap_key (origin_key destination_key : string) : prog RemappedKey :=
  wildcard_origin <-
    decorate_hotkey ("*" ++ origin_key)%string (VFunc "wildcard_origin") ;;
  wildcard_origin_up <-
    decorate_hotkey ("*" ++ origin_key ++ " Up")%string (VFunc "wildcard_origin_up") ;;
  Ret (MkRemappedKey wildcard_origin wildcard_origin_up).

End Keys.

(* ================================================================== *)
(** ** The option grammar as the design document words it *)
(* ================================================================== *)

(** The definitions of this module follow the wording of the design document
    (section 4.1, "OptionEncoder"), step by step, and not the code; the
    theorems below compare them with [hotkey_option_str] and
    [hotstring_option_str], which follow the code. *)

Module Encoder.

(** A flag in one of its three states: unset, explicitly false, true. *)
Definition flag (on off : string) (f : option bool) : list string :=
  match f with
  | None => []
  | Some false => [off]
  | Some true => [on]
  end.

(** A numeric field: [<letter><n>] if set. *)
Definition number (letter : string) (n : option Z) : list string :=
  match n with
  | None => []
  | Some n => [(letter ++ format_int n)%string]
  end.

(** Hotkey encoding: buffer flag, priority, max-threads, input-level. *)
Definition hotkey_tokens (o : hotkey_options) : list string :=
  flag "B" "B0" (buffer o)
  ++ number "P" (priority o)
  ++ number "T" (max_threads o)
  ++ number "I" (input_level o).

(** 1. End-char handling. *)
Definition end_char (wait omit : option bool) : list string :=
  match wait, omit with
  | Some false, _ => ["*"]
  | _, Some true => ["*0"; "O"]
  | _, _ =>
      (match wait with Some true => ["*0"] | _ => [] end)
      ++ (match omit with Some false => ["O0"] | _ => [] end)
  end.

(** 4. Case handling, in priority order. *)
Definition case_handling (conform sensitive : option bool) : list string :=
  match conform, sensitive with
  | Some true, _ => ["C1"]
  | _, Some true => ["C"]
  | None, None => []
  | _, _ => ["C0"]
  end.

(** 7. Raw/text, text wins. *)
Definition raw_text (text raw : option bool) : list string :=
  match text, raw with
  | Some true, _ => ["T"]
  | _, Some true => ["R"]
  | None, None => []
  | _, _ => ["R0"]
  end.

(** 8. Send mode, matched without regard to case. *)
Definition send_mode (mode : option string) : list string :=
  match mode with
  | None => []
  | Some m =>
      if String.eqb (lower m) "input" then ["SI"]
      else if String.eqb (lower m) "play" then ["SP"]
      else if String.eqb (lower m) "event" then ["SE"]
      else []
  end.

Definition hotstring_tokens (o : hotstring_options) : list string :=
  end_char (wait_for_end_char o) (omit_end_char o)
  ++ flag "?" "?0" (replace_inside_word o)
  ++ flag "B" "B0" (backspacing o)
  ++ case_handling (conform_to_case o) (case_sensitive o)
  ++ number "K" (key_delay o)
  ++ number "P" (hs_priority o)
  ++ raw_text (text o) (raw o)
  ++ send_mode (mode o)
  ++ flag "Z" "Z0" (reset_recognizer o).

(** Tokens are concatenated with no separator. *)
Definition encode (tokens : list string) : string := String.concat "" tokens.

End Encoder.

(** The engine calls of [_enter] and [_exit]. *)
Definition enter_calls (ctx : BaseHotkeyContext) : list call :=
  match ctx with
  | default_context => []
  | HotkeyContext_ predicate => [Call "HotkeyContext" [AFun predicate]]
  end.

Definition exit_calls (ctx : BaseHotkeyContext) : list call :=
  match ctx with
  | default_context => []
  | HotkeyContext_ _ => [Call "HotkeyExitContext" []]
  end.

(** The protocol both [update] methods end with: under the lock, enter the
    context, issue one registration call, leave the context. *)
Definition guarded_call (ctx : BaseHotkeyContext) (c : call) : prog unit :=
  with_lock (
    _enter ctx ;;
    try_finally (ahk_call (cmd c) (args c) ;; Ret tt) (_exit ctx)).

(** One invocation of an [update] method: the trigger it is called on and
    its arguments. *)
Inductive invocation : Type :=
| UpdateHotkey (hk : Hotkey) (func : value) (o : hotkey_options)
| UpdateHotstring (hs : Hotstring) (replacement : value) (o : hotstring_options).

Definition program (hash : BaseHotkeyContext -> Z) (inv : invocation) : prog unit :=
  match inv with
  | UpdateHotkey hk func o => Hotkey_update hash hk func o
  | UpdateHotstring hs replacement o => Hotstring_update hs replacement o
  end.

Definition context_of (inv : invocation) : BaseHotkeyContext :=
  match inv with
  | UpdateHotkey hk _ _ => hk_context hk
  | UpdateHotstring hs _ _ => hs_context hs
  end.

Definition registration (hash : BaseHotkeyContext -> Z) (inv : invocation) : call :=
  match inv with
  | UpdateHotkey hk func o => Hotkey_call hash hk func o
  | UpdateHotstring hs replacement o => Hotstring_call hs replacement o
  end.

(** The three key-state queries of the module, and the engine call each one
    issues. *)
Inductive key_query : Type := Logical | Physical | Toggled.

Definition ask (q : key_query) (key_name : string) : prog value :=
  match q with
  | Logical => get_key_state key_name
  | Physical => get_physical_key_state key_name
  | Toggled => is_key_toggled key_name
  end.

Definition query_call (q : key_query) (key_name : string) : call :=
  Call "GetKeyState"
       [AStr key_name;
        mode_arg (match q with
                  | Logical => None
                  | Physical => Some "P"
                  | Toggled => Some "T"
                  end)].

(** The engine call of [Hotkey.enable], [.disable] and [.toggle]. *)
Definition state_call (hk : Hotkey) (action : string) : call :=
  Call "HotkeySpecial" [AStr (key_name hk); AStr action].

(** [()] for a call whose value is dropped. *)
Definition drop (r : outcome value) : outcome unit :=
  match r with Returned _ => Returned tt | Raised e => Raised e end.

(** The names listed by the error message of [is_key_toggled]. *)
Definition listed_toggle_keys : list string :=
  ["capslock"; "numlock"; "scrolllock"; "insert"].

(* ================================================================== *)
(** ** Several threads sharing the lock *)
(* ================================================================== *)

Module Threads.

Definition tid : Type := nat.

(** An invocation is known by the thread that runs it and its rank among
    the invocations of that thread. *)
Definition invocation_id : Type := (tid * nat)%type.

Definition same_id (a b : invocation_id) : bool :=
  Nat.eqb (fst a) (fst b) && Nat.eqb (snd a) (snd b).

(** The program each thread is running, the rank of the invocation it
    belongs to, who holds [BaseHotkeyContext._lock] and how many times (it
    is an [RLock]), and the engine calls in the order the engine received
    them, each with the invocation that issued it. *)
Record state : Type := State {
  pool : tid -> prog unit;
  rank : tid -> nat;
  owner : option (tid * nat);
  log : list (invocation_id * call)
}.

Definition set_thread {A} (i : tid) (x : A) (f : tid -> A) : tid -> A :=
  fun j => if Nat.eqb j i then x else f j.

(** The three steps of an invocation, as engine calls: enter the context,
    register, leave the context. *)
Definition triple (hash : BaseHotkeyContext -> Z) (inv : invocation) : list call :=
  enter_calls (context_of inv) ++ [registration hash inv]
  ++ exit_calls (context_of inv).

Section Run.

Variable hash : BaseHotkeyContext -> Z.

(** What each thread does: its [update] calls, one after the other; a
    call that raises ends the thread. *)
Variable plans : list (list invocation).

Definition planned (i : tid) (k : nat) : option invocation :=
  nth_error (nth i plans []) k.

Definition start (i : tid) (k : nat) : prog unit :=
  match planned i k with
  | Some inv => program hash inv
  | None => Ret tt
  end.

(** Thread [i] performs its next action; [answer] is what the engine
    answers if the action is an engine call.  A thread that cannot take
    the lock waits: the state is unchanged.  A thread whose [update]
    returned goes on to its next one. *)
Definition step_thread (i : tid) (answer : outcome value) (s : state) : state :=
  match pool s i with
  | Ret _ =>
      match planned i (S (rank s i)) with
      | Some inv =>
          State (set_thread i (program hash inv) (pool s))
                (set_thread i (S (rank s i)) (rank s)) (owner s) (log s)
      | None => s
      end
  | Raise _ => s
  | Act Acquire k =>
      match owner s with
      | None =>
          State (set_thread i (k (Returned VNone)) (pool s)) (rank s)
                (Some (i, 1)) (log s)
      | Some (j, n) =>
          if Nat.eqb j i then
            State (set_thread i (k (Returned VNone)) (pool s)) (rank s)
                  (Some (i, S n)) (log s)
          else s
      end
  | Act Release k =>
      match owner s with
      | Some (j, S n) =>
          if Nat.eqb j i then
            State (set_thread i (k (Returned VNone)) (pool s)) (rank s)
                  (match n with 0 => None | S _ => Some (i, n) end) (log s)
          else s
      | _ => s
      end
  | Act (Ahk c) k =>
      State (set_thread i (k answer) (pool s)) (rank s) (owner s)
            (log s ++ [((i, rank s i), c)])
  end.

(** A schedule says which thread moves next and what the engine answers. *)
Definition schedule : Type := list (tid * outcome value).

Fixpoint exec (sch : schedule) (s : state) : state :=
  match sch with
  | [] => s
  | (i, answer) :: sch' => exec sch' (step_thread i answer s)
  end.

(** Every thread is about to make its first call; nobody holds the lock. *)
Definition spawn : state :=
  State (fun i => start i 0) (fun _ => 0) None [].

(** The calls of one invocation in a log, oldest first. *)
Definition calls_by (id : invocation_id) (l : list (invocation_id * call))
  : list call :=
  map snd (filter (fun e => same_id (fst e) id) l).

(** Where a thread stands with respect to the guarded region. *)
Definition idle (p : prog unit) : Prop :=
  match p with Act _ _ => False | _ => True end.

Fixpoint inside (p : prog unit) : Prop :=
  match p with
  | Act Release k => forall r, idle (k r)
  | Act (Ahk _) k => forall r, inside (k r)
  | _ => False
  end.

Definition outside (p : prog unit) : Prop :=
  match p with
  | Act Acquire k => forall r, inside (k r)
  | _ => False
  end.

(** [follows p l]: the engine calls [p] can still issue are, in order, the
    first calls of [l]. *)
Fixpoint follows (p : prog unit) (l : list call) : Prop :=
  match p with
  | Act (Ahk c) k =>
      match l with
      | c' :: l' => c = c' /\ forall r, follows (k r) l'
      | [] => False
      end
  | Act _ k => forall r, follows (k r) l
  | _ => True
  end.

(** An invocation that will issue no further call. *)
Definition finished (s : state) (id : invocation_id) : Prop :=
  snd id < rank s (fst id) \/ idle (pool s (fst id)).

Definition planned_calls (id : invocation_id) : list call :=
  match planned (fst id) (snd id) with
  | Some inv => triple hash inv
  | None => []
  end.

(** What holds of every state the threads can reach. *)
Record invariant (s : state) : Prop := Invariant {
  inv_free : owner s = None -> forall i, outside (pool s i) \/ idle (pool s i);
  inv_held : forall o n, owner s = Some (o, n) ->
             n = 1 /\ inside (pool s o) /\
             forall i, i <> o -> outside (pool s i) \/ idle (pool s i);
  inv_rank : forall p e, nth_error (log s) p = Some e ->
             snd (fst e) <= rank s (fst (fst e));
  inv_fresh : forall i, outside (pool s i) ->
              forall p e, nth_error (log s) p = Some e -> fst e <> (i, rank s i);
  inv_done : forall p q a b, p < q ->
             nth_error (log s) p = Some a -> nth_error (log s) q = Some b ->
             fst a <> fst b -> finished s (fst a);
  inv_serial : forall p q r a b c, p < q -> q < r ->
               nth_error (log s) p = Some a -> nth_error (log s) q = Some b ->
               nth_error (log s) r = Some c ->
               fst a = fst c -> fst b = fst a;
  inv_plan : forall i k, exists rest,
             planned_calls (i, k) = calls_by (i, k) (log s) ++ rest
             /\ (k = rank s i -> follows (pool s i) rest)
}.

End Run.
End Threads.

(* ================================================================== *)
(** ** Lock keys, waiting for keys, send level *)
(* ================================================================== *)

(** [isinstance(state, str) and state.lower() in words] *)
Definition str_lower_in (state : value) (words : list string) : bool :=
  match state with
  | VStr s => str_in (lower s) words
  | _ => false
  end.

Definition _set_key_state (cmd : string) (state : value) : prog unit :=
  let state :=
    if str_lower_in state ["always_on"; "alwayson"] then "AlwaysOn"
    else if str_lower_in state ["always_off"; "alwaysoff"] then "AlwaysOff"
    else if truthy state then "On"
    else "Off" in
  ahk_call cmd [AStr state] ;; Ret tt.

Definition set_caps_lock_state (state : value) : prog unit :=
  _set_key_state "SetCapsLockState" state.

Definition set_num_lock_state (state : value) : prog unit :=
  _set_key_state "SetNumLockState" state.

Definition set_scroll_lock_state (state : value) : prog unit :=
  _set_key_state "SetScrollLockState" state.

(** [_key_wait]; the timeout is a whole number of seconds here. *)
Definition _key_wait (key_name : string) (down logical_state : bool)
           (timeout : option Z) : prog value :=
  let options : list string := [] in
  let options := if down then options ++ ["D"] else options in
  let options := if logical_state then options ++ ["L"] else options in
  let options :=
    match timeout with
    | Some t => options ++ [("T" ++ format_int t)%string]
    | None => options
    end in
  timed_out <- ahk_call "KeyWait" [AStr key_name; AStr (join options)] ;;
  Ret (VBool (negb (truthy timed_out))).

Definition key_wait_pressed (key_name : string) (logical_state : bool)
           (timeout : option Z) : prog value :=
  _key_wait key_name true logical_state timeout.

Definition key_wait_released (key_name : string) (logical_state : bool)
           (timeout : option Z) : prog value :=
  _key_wait key_name false logical_state timeout.

Definition send_level (level : Z) : prog unit :=
  if negb ((0 <=? level)%Z && (level <=? 100)%Z) then
    Raise (ValueError "level must be between 0 and 100")
  else
    ahk_call "SendLevel" [AVal (VInt level)] ;; Ret tt.

(** [hotkey(key_name, **options)(func)] and
    [hotstring(string, **options)(replacement)]: the factory called without
    its second argument, and the result called with it. *)
Definition hotkey_decorated (hash : BaseHotkeyContext -> Z)
           (self : BaseHotkeyContext) (key_name : string) (o : hotkey_options)
           (func : value) : prog hotkey_result :=
  r <- hotkey hash self key_name VNone o ;;
  match r with
  | HotkeyDecorator d => call_hotkey_partial hash d func
  | HotkeyObject _ => Raise (TypeError "'Hotkey' object is not callable")
  end.

Definition hotstring_decorated (self : BaseHotkeyContext) (string : string)
           (o : hotstring_options) (replacement : value) : prog hotstring_result :=
  r <- hotstring self string VNone o ;;
  match r with
  | HotstringDecorator d => call_hotstring_partial d replacement
  | HotstringObject _ => Raise (TypeError "'Hotstring' object is not callable")
  end.

(** The two registration calls of [remap_key]. *)
Definition remap_down_call (hash : BaseHotkeyContext -> Z) (origin_key : string) : call :=
  Hotkey_call hash (MkHotkey ("*" ++ origin_key)%string default_context)
              (VFunc "wildcard_origin") hotkey_defaults.

Definition remap_up_call (hash : BaseHotkeyContext -> Z) (origin_key : string) : call :=
  Hotkey_call hash (MkHotkey ("*" ++ origin_key ++ " Up")%string default_context)
              (VFunc "wildcard_origin_up") hotkey_defaults.

(** [o] with another [mode], another [omit_end_char]. *)
Definition with_mode (m : option string) (o : hotstring_options) : hotstring_options :=
  HotstringOptions (wait_for_end_char o) (replace_inside_word o) (backspacing o)
                   (case_sensitive o) (conform_to_case o) (key_delay o)
                   (omit_end_char o) (hs_priority o) (raw o) (text o) m
                   (reset_recognizer o).

Definition with_omit_end_char (b : option bool) (o : hotstring_options)
  : hotstring_options :=
  HotstringOptions (wait_for_end_char o) (replace_inside_word o) (backspacing o)
                   (case_sensitive o) (conform_to_case o) (key_delay o)
                   b (hs_priority o) (raw o) (text o) (mode o)
                   (reset_recognizer o).

(* ================================================================== *)
(** ** Reading hotkey option strings back *)
(* ================================================================== *)

(** A reader for the strings [hotkey_option_str] writes; it serves to show
    that no two configurations are written alike. *)
Definition is_num_char (c : ascii) : bool :=
  let n := N_of_ascii c in
  (N.eqb n 45 || (N.leb 48 n && N.leb n 57))%bool.

Fixpoint span_num (s : string) : string * string :=
  match s with
  | EmptyString => (EmptyString, EmptyString)
  | String c s' =>
      if is_num_char c then
        let (digits, rest) := span_num s' in (String c digits, rest)
      else (EmptyString, s)
  end.

Definition parse_int (s : string) : option Z :=
  option_map Z.of_int (NilZero.int_of_string s).

Definition read_number (letter : ascii) (s : string) : option Z * string :=
  match s with
  | String c s' =>
      if Ascii.eqb c letter then
        let (digits, rest) := span_num s' in (parse_int digits, rest)
      else (None, s)
  | EmptyString => (None, s)
  end.

Definition read_buffer (s : string) : option bool * string :=
  match s with
  | String "B" (String "0" rest) => (Some false, rest)
  | String "B" rest => (Some true, rest)
  | _ => (None, s)
  end.

Definition read_hotkey_options (s : string) : hotkey_options :=
  let (b, s) := read_buffer s in
  let (p, s) := read_number "P" s in
  let (t, s) := read_number "T" s in
  let (i, _) := read_number "I" s in
  HotkeyOptions b p t i.

Definition number_str (letter : ascii) (n : option Z) : string :=
  match n with
  | Some n => String letter (format_int n)
  | None => EmptyString
  end.

(** A string that does not go on with a sign or a digit. *)
Definition clean (r : string) : Prop :=
  match r with
  | String c _ => is_num_char c = false
  | EmptyString => True
  end.

(* ================================================================== *)
(** ** Command line of the launcher ([src/ahk.py]) *)
(* ================================================================== *)

(** The tuple [help, quiet, module, file, rest] returned by [_parse_args]. *)
Record parsed_args : Type := ParsedArgs {
  pa_help : bool;
  pa_quiet : bool;
  pa_module : option string;
  pa_file : option string;
  pa_rest : list string
}.

(** [_parse_args], with [sys.argv] as its argument; [None] is the bare
    [return]. *)
Definition _parse_args (argv : list string) : option parsed_args :=
  if Nat.ltb (length argv) 2 then None
  else
    let args := skipn 1 argv in
    let help := false in
    let quiet := false in
    let module : option string := None in
    let file : option string := None in
    let rest : list string := [] in
    if str_in (hd "" args) ["-h"; "--help"] then
      let help := true in
      Some (ParsedArgs help quiet module file rest)
    else
      let (quiet, args) :=
        if str_in (hd "" args) ["-q"; "--quiet"] then (true, skipn 1 args)
        else (quiet, args) in
      if Nat.ltb (length args) 1 then None
      else if String.eqb (hd "" args) "-m" then
        if Nat.ltb (length args) 2 then None
        else
          match skipn 1 args with
          | m :: rest => Some (ParsedArgs help quiet (Some m) file rest)
          | [] => None
          end
      else
        match args with
        | f :: rest => Some (ParsedArgs help quiet module (Some f) rest)
        | [] => None
        end.

(** The words that name the program to run, as they stood on the command
    line. *)
Definition program_words (r : parsed_args) : list string :=
  match pa_module r, pa_file r with
  | Some m, _ => ["-m"; m]
  | None, Some f => [f]
  | None, None => []
  end.

(** An engine that refuses to install predicates. *)
Definition no_context : dispatcher :=
  fun _ c =>
    if String.eqb (cmd c) "HotkeyContext" then Raised (Error "no context")
    else Returned (VInt 1).

(** An engine that fails when a context is left. *)
Definition no_exit : dispatcher :=
  fun _ c =>
    if String.eqb (cmd c) "HotkeyExitContext" then Raised (Error "no exit")
    else Returned (VInt 1).

(** Thread [o] moves [n] times in a row; the engine call it makes at its
    [k]-th move, if any, is answered [answers k]. *)
Fixpoint turns (o : Threads.tid) (answers : nat -> outcome value) (n : nat)
  : Threads.schedule :=
  match n with
  | 0 => []
  | S n' => (o, answers 0) :: turns o (fun k => answers (S k)) n'
  end.

(* ================================================================== *)
(** ** Sample engines and inputs *)
(* ================================================================== *)

(** An engine that accepts every call and answers [1]. *)
Definition accepting : dispatcher := fun _ _ => Returned (VInt 1).

(** An engine that rejects registrations and accepts the rest. *)
Definition rejecting : dispatcher :=
  fun _ c =>
    if String.eqb (cmd c) "Hotkey" || String.eqb (cmd c) "Hotstring"
    then Raised (Error "rejected")
    else Returned (VInt 1).

(** An engine that cannot tell the state of any key. *)
Definition undetermined : dispatcher := fun _ _ => Returned (VStr "").

Definition sample_hash : BaseHotkeyContext -> Z := fun _ => 0%Z.

(** The Kelvin sign U+212A, in UTF-8. *)
Definition kelvin_sign : string :=
  String "226" (String "132" (String "170" EmptyString)).

(** A predicate of no parameter, as in [HotkeyContext(lambda: 1)]. *)
Definition always : user_predicate :=
  UserPredicate 0 (fun args => match args with
                               | [] => Returned (VInt 1)
                               | _ => Raised (Error "takes 0 positional arguments")
                               end).

(** A predicate of one parameter, as in [HotkeyContext(lambda x: x)]. *)
Definition same : user_predicate :=
  UserPredicate 1 (fun args => match args with
                               | [x] => Returned x
                               | _ => Raised (Error "takes 1 positional argument")
                               end).

Definition sample_hotkey : Hotkey := MkHotkey "^a" (HotkeyContext always).
Definition sample_hotstring : Hotstring := MkHotstring "btw" (HotkeyContext same).
Definition sample_options : hotkey_options :=
  HotkeyOptions (Some true) (Some 5%Z) (Some 2%Z) None.

(** Two threads under predicate contexts.  Thread 0 updates a hotkey twice,
    thread 1 updates a hotstring once and has its registration rejected; each
    thread keeps asking for the lock while the other one is at work. *)
Definition sample_plans : list (list invocation) :=
  [[UpdateHotkey sample_hotkey (VFunc "cb") sample_options;
    UpdateHotkey sample_hotkey (VFunc "cb") (HotkeyOptions (Some false) None None None)];
   [UpdateHotstring sample_hotstring (VStr "by the way") hotstring_defaults]].

Definition sample_schedule : Threads.schedule :=
  let ok := Returned VNone in
  [(0, ok); (1, ok); (0, ok); (0, ok); (1, ok); (0, ok); (0, ok);
   (1, ok); (0, ok); (0, ok); (1, ok); (1, Raised (Error "rejected")); (0, ok);
   (1, ok); (1, ok);
   (0, ok); (0, ok); (0, ok); (0, ok); (0, ok)].

(* ================================================================== *)
(** ** Proof automation *)
(* ================================================================== *)

(** Name the value bound by the outermost [let] of the left-hand side. *)
Ltac name_let x rhs :=
  lazymatch goal with
  | |- (let y := ?v in @?body y) = _ =>
      pose (x := v); change (body x = rhs); cbv beta
  end.

(** One stage of the hotstring encoder: the list after the stage is the list
    before it followed by the tokens [toks]; [tac] splits on the fields the
    stage reads. *)
Ltac stage x prev toks rhs tac :=
  name_let x rhs;
  assert (x = prev ++ toks)
    by (subst x; tac; rewrite ?app_nil_r, <- ?app_assoc; reflexivity);
  clearbody x.

Ltac split_flag f := destruct f as [[|]|]; simpl.
Ltac split_num f := destruct f as [?|]; simpl.

(* ================================================================== *)
(** ** Running programs: the equations of [run] *)
(* ================================================================== *)

Lemma run_bind {A B} (d : dispatcher) (p : prog A) (f : A -> prog B) :
  forall w,
    run d (bind p f) w =
    match run d p w with
    | (w', Returned a) => run d (f a) w'
    | (w', Raised e) => (w', Raised e)
    end.
Proof.
  induction p as [a | e | a k IH]; intro w; simpl; try reflexivity.
  destruct a; apply IH.
Qed.

Lemma run_try_finally {A} (d : dispatcher) (body : prog A) (fin : prog unit) :
  forall w,
    run d (try_finally body fin) w =
    match run d body w with
    | (w', r) =>
        match run d fin w' with
        | (w'', Returned _) => (w'', r)
        | (w'', Raised e) => (w'', Raised e)
        end
    end.
Proof.
  induction body as [a | e | a k IH]; intro w; simpl.
  - rewrite run_bind. destruct (run d fin w) as [w' [[] | e]]; reflexivity.
  - rewrite run_bind. destruct (run d fin w) as [w' [[] | e']]; reflexivity.
  - destruct a; apply IH.
Qed.

Lemma run_ahk_call (d : dispatcher) (name : string) (xs : list arg) (w : world) :
  run d (ahk_call name xs) w =
  (World (trace w ++ [Call name xs]) (lock_depth w), d (trace w) (Call name xs)).
Proof.
  simpl. destruct (d (trace w) (Call name xs)); reflexivity.
Qed.

(** The trace only grows. *)
Lemma run_trace_extends {A} (d : dispatcher) (p : prog A) :
  forall w, exists l, trace (fst (run d p w)) = trace w ++ l.
Proof.
  induction p as [a | e | a k IH]; intro w; simpl.
  - exists []. now rewrite app_nil_r.
  - exists []. now rewrite app_nil_r.
  - destruct a.
    + apply (IH _ (World (trace w) (S (lock_depth w)))).
    + apply (IH _ (World (trace w) (pred (lock_depth w)))).
    + destruct (IH (d (trace w) c) (World (trace w ++ [c]) (lock_depth w)))
        as [l Hl].
      exists (c :: l). rewrite Hl. simpl. now rewrite <- app_assoc.
Qed.

(* ================================================================== *)
(** ** The option encoders *)
(* ================================================================== *)

Lemma hotkey_option_str_tokens (o : hotkey_options) :
  hotkey_option_str o = Encoder.encode (Encoder.hotkey_tokens o).
Proof.
  unfold hotkey_option_str, Encoder.hotkey_tokens, Encoder.encode, join.
  destruct o as [[[|]|] [p|] [t|] [i|]]; reflexivity.
Qed.

Lemma hotstring_option_str_tokens (o : hotstring_options) :
  hotstring_option_str o = Encoder.encode (Encoder.hotstring_tokens o).
Proof.
  set (rhs := Encoder.encode _).
  cbv delta [hotstring_option_str]; cbv beta.
  name_let o0 rhs.
  stage o1 o0 (Encoder.end_char (wait_for_end_char o) (omit_end_char o)) rhs
    ltac:(split_flag (wait_for_end_char o); split_flag (omit_end_char o)).
  stage o2 o1 (Encoder.flag "?" "?0" (replace_inside_word o)) rhs
    ltac:(split_flag (replace_inside_word o)).
  stage o3 o2 (Encoder.flag "B" "B0" (backspacing o)) rhs
    ltac:(split_flag (backspacing o)).
  stage o4 o3 (Encoder.case_handling (conform_to_case o) (case_sensitive o)) rhs
    ltac:(split_flag (conform_to_case o); split_flag (case_sensitive o)).
  stage o5 o4 (Encoder.number "K" (key_delay o)) rhs
    ltac:(split_num (key_delay o)).
  stage o6 o5 (Encoder.number "P" (hs_priority o)) rhs
    ltac:(split_num (hs_priority o)).
  stage o7 o6 (Encoder.raw_text (text o) (raw o)) rhs
    ltac:(split_flag (text o); split_flag (raw o)).
  name_let m rhs.
  stage o8 o7 (Encoder.send_mode (mode o)) rhs
    ltac:(subst m; unfold SendMode.INPUT, SendMode.PLAY, SendMode.EVENT;
          destruct (mode o) as [s|]; simpl;
          [destruct (lower s =? "input"); [|destruct (lower s =? "play");
            [|destruct (lower s =? "event")]]|]).
  stage o9 o8 (Encoder.flag "Z" "Z0" (reset_recognizer o)) rhs
    ltac:(split_flag (reset_recognizer o)).
  subst rhs o0. unfold Encoder.hotstring_tokens, Encoder.encode, join.
  repeat match goal with H : _ = _ ++ _ |- _ => rewrite H; clear H end.
  simpl. rewrite <- ?app_assoc. reflexivity.
Qed.

(* ================================================================== *)
(** ** The guarded registration protocol *)
(* ================================================================== *)

Section Guarded.

Variable hash : BaseHotkeyContext -> Z.

Lemma Hotkey_update_guarded (hk : Hotkey) (func : value) (o : hotkey_options) :
  Hotkey_update hash hk func o =
  guarded_call (hk_context hk) (Hotkey_call hash hk func o).
Proof. reflexivity. Qed.

Lemma Hotstring_update_guarded (hs : Hotstring) (repl : value)
      (o : hotstring_options) :
  Hotstring_update hs repl o =
  guarded_call (hs_context hs) (Hotstring_call hs repl o).
Proof. reflexivity. Qed.

End Guarded.

Lemma run_enter (d : dispatcher) (ctx : BaseHotkeyContext) (w : world) :
  run d (_enter ctx) w =
  (World (trace w ++ enter_calls ctx) (lock_depth w),
   match ctx with
   | default_context => Returned tt
   | HotkeyContext_ p => drop (d (trace w) (Call "HotkeyContext" [AFun p]))
   end).
Proof.
  destruct ctx as [|p]; simpl.
  - rewrite app_nil_r. now destruct w.
  - destruct (d (trace w) _); reflexivity.
Qed.

Lemma run_exit (d : dispatcher) (ctx : BaseHotkeyContext) (w : world) :
  run d (_exit ctx) w =
  (World (trace w ++ exit_calls ctx) (lock_depth w),
   match ctx with
   | default_context => Returned tt
   | HotkeyContext_ _ => drop (d (trace w) (Call "HotkeyExitContext" []))
   end).
Proof.
  destruct ctx as [|p]; simpl.
  - rewrite app_nil_r. now destruct w.
  - destruct (d (trace w) _); reflexivity.
Qed.

(** The whole behaviour of the protocol, path by path. *)
Lemma run_guarded_call (d : dispatcher) (ctx : BaseHotkeyContext) (c : call)
      (w : world) :
  run d (guarded_call ctx c) w =
  match result_of d (_enter ctx) w with
  | Raised e => (World (trace w ++ enter_calls ctx) (lock_depth w), Raised e)
  | Returned _ =>
      let t1 := trace w ++ enter_calls ctx in
      let t2 := t1 ++ [c] in
      (World (t2 ++ exit_calls ctx) (lock_depth w),
       match result_of d (_exit ctx) (World t2 (S (lock_depth w))) with
       | Raised e => Raised e
       | Returned _ => drop (d t1 c)
       end)
  end.
Proof.
  destruct c as [name xs]; destruct ctx as [|p]; unfold result_of; simpl.
  - rewrite !app_nil_r. destruct (d (trace w) (Call name xs)); reflexivity.
  - destruct (d (trace w) (Call "HotkeyContext" [AFun p])); simpl; [|reflexivity].
    destruct (d (trace w ++ [Call "HotkeyContext" [AFun p]]) (Call name xs)); simpl;
      destruct (d ((trace w ++ [Call "HotkeyContext" [AFun p]]) ++ [Call name xs])
                  (Call "HotkeyExitContext" [])); reflexivity.
Qed.

(** The engine calls of an [update], whatever the engine answers: the calls
    of [_enter], then -- unless [_enter] failed -- the registration call and
    the calls of [_exit]. *)
Lemma calls_of_guarded_call (d : dispatcher) (ctx : BaseHotkeyContext) (c : call)
      (w : world) :
  calls_of d (guarded_call ctx c) w =
  trace w ++ enter_calls ctx ++
  match result_of d (_enter ctx) w with
  | Returned _ => [c] ++ exit_calls ctx
  | Raised _ => []
  end.
Proof.
  unfold calls_of. rewrite run_guarded_call.
  destruct (result_of d (_enter ctx) w); cbn [fst trace].
  - now rewrite <- !app_assoc.
  - now rewrite app_nil_r.
Qed.

Lemma result_of_guarded_call (d : dispatcher) (ctx : BaseHotkeyContext) (c : call)
      (w : world) :
  result_of d (guarded_call ctx c) w =
  match result_of d (_enter ctx) w with
  | Raised e => Raised e
  | Returned _ =>
      match result_of d (_exit ctx)
                      (World ((trace w ++ enter_calls ctx) ++ [c])
                             (S (lock_depth w))) with
      | Raised e => Raised e
      | Returned _ => drop (d (trace w ++ enter_calls ctx) c)
      end
  end.
Proof.
  unfold result_of at 1. rewrite run_guarded_call.
  destruct (result_of d (_enter ctx) w); reflexivity.
Qed.

(* ================================================================== *)
(** ** Option strings sent to the engine *)
(* ================================================================== *)

(** C1.  [Hotstring.update] builds the option string of the ordered-token
    algorithm (end-char handling, inside-word, backspacing, case handling,
    key delay, priority, raw/text, send mode, reset-recognizer, joined with no
    separator), and that string is the one put between the colons of the
    registration call.  With [conform_to_case=True] the case token is [C1]
    whatever [case_sensitive] is.  [hotstring("btw", "by the way")] with nothing else
    given has the empty option string and issues exactly the call with
    arguments ["::btw"] and ["by the way"]. *)
Theorem hotstring_update_encoding :
  (forall o : hotstring_options,
      hotstring_option_str o = Encoder.encode (Encoder.hotstring_tokens o))
  /\ (forall (d : dispatcher) (hs : Hotstring) (replacement : value)
             (o : hotstring_options) (w : world),
         calls_of d (Hotstring_update hs replacement o) w =
         trace w ++ enter_calls (hs_context hs) ++
         match result_of d (_enter (hs_context hs)) w with
         | Returned _ =>
             [Call "Hotstring"
                   [AStr (":" ++ Encoder.encode (Encoder.hotstring_tokens o)
                              ++ ":" ++ string_ hs)%string;
                    AVal (py_or replacement (VStr ""))]]
             ++ exit_calls (hs_context hs)
         | Raised _ => []
         end)
  /\ (forall case_sensitive : option bool,
         hotstring_option_str
           (HotstringOptions None None None case_sensitive (Some true)
                             None None None None None None None) = "C1")
  /\ hotstring_option_str hotstring_defaults = ""
  /\ (forall d : dispatcher,
         calls_of d (hotstring default_context "btw" (VStr "by the way")
                               hotstring_defaults) initial =
         [Call "Hotstring" [AStr "::btw"; AStr "by the way"]]).
Proof.
  split; [exact hotstring_option_str_tokens|].
  split; [|split; [|split]].
  - intros d hs replacement o w.
    rewrite Hotstring_update_guarded, calls_of_guarded_call.
    unfold Hotstring_call. now rewrite hotstring_option_str_tokens.
  - intros [[|]|]; reflexivity.
  - reflexivity.
  - intro d. unfold calls_of. simpl.
    destruct (d [] _); reflexivity.
Qed.

(** C2.  [Hotkey.update] builds its option string from the buffer flag
    (nothing when unset, [B0] when false, [B] when true), then [P<n>],
    [T<n>], [I<n>] for the numeric fields that are set, in this order and
    with no separator, and passes it as the last argument of the
    registration call.  [hotkey("^a", cb, buffer=True, priority=5,
    max_threads=2)] sends the option string ["BP5T2"]. *)
Theorem hotkey_update_encoding :
  forall hash : BaseHotkeyContext -> Z,
  (forall o : hotkey_options,
      hotkey_option_str o = Encoder.encode (Encoder.hotkey_tokens o))
  /\ (forall (d : dispatcher) (hk : Hotkey) (func : value)
             (o : hotkey_options) (w : world),
         calls_of d (Hotkey_update hash hk func o) w =
         trace w ++ enter_calls (hk_context hk) ++
         match result_of d (_enter (hk_context hk)) w with
         | Returned _ =>
             [Call "Hotkey"
                   [AVal (VInt (hash (hk_context hk))); AStr (key_name hk);
                    AVal (py_or func (VStr ""));
                    AStr (Encoder.encode (Encoder.hotkey_tokens o))]]
             ++ exit_calls (hk_context hk)
         | Raised _ => []
         end)
  /\ (forall (d : dispatcher) (cb : string),
         calls_of d (hotkey hash default_context "^a" (VFunc cb)
                            (HotkeyOptions (Some true) (Some 5%Z) (Some 2%Z)
                                           (DEFAULT 0%Z))) initial =
         [Call "Hotkey" [AVal (VInt (hash default_context)); AStr "^a";
                         AVal (VFunc cb); AStr "BP5T2"]]).
Proof.
  intro hash. split; [exact hotkey_option_str_tokens|]. split.
  - intros d hk func o w.
    rewrite Hotkey_update_guarded, calls_of_guarded_call.
    unfold Hotkey_call. now rewrite hotkey_option_str_tokens.
  - intros d cb. unfold calls_of. simpl.
    destruct (d [] _); reflexivity.
Qed.

(* ================================================================== *)
(** ** Failure of the registration call *)
(* ================================================================== *)

Lemma program_guarded (hash : BaseHotkeyContext -> Z) (inv : invocation) :
  program hash inv = guarded_call (context_of inv) (registration hash inv).
Proof. destruct inv; reflexivity. Qed.

(** C4.  For [Hotkey.update] and [Hotstring.update] alike: the lock is held
    after the call as many times as before it, on every path.  Once the
    registration call is reached, the calls of [_exit] follow it whether it
    succeeded or not, and if it failed then [update] fails: with the
    engine's exception when [_exit] returns normally. *)
Theorem update_failure_propagates_and_releases :
  forall (hash : BaseHotkeyContext -> Z) (d : dispatcher) (inv : invocation)
         (w : world),
    lock_depth (fst (run d (program hash inv) w)) = lock_depth w
    /\ (result_of d (_enter (context_of inv)) w = Returned tt ->
        let before := trace w ++ enter_calls (context_of inv) in
        let c := registration hash inv in
        calls_of d (program hash inv) w =
        before ++ [c] ++ exit_calls (context_of inv)
        /\ forall e, d before c = Raised e ->
             exists e', result_of d (program hash inv) w = Raised e'
               /\ (result_of d (_exit (context_of inv))
                             (World (before ++ [c]) (S (lock_depth w)))
                   = Returned tt -> e' = e)).
Proof.
  intros hash d inv w. rewrite program_guarded. split.
  - rewrite run_guarded_call.
    destruct (result_of d (_enter (context_of inv)) w); reflexivity.
  - intros Henter. cbn zeta. split.
    + rewrite calls_of_guarded_call, Henter. now rewrite <- !app_assoc.
    + intros e He. rewrite result_of_guarded_call, Henter, He. cbn [drop].
      destruct (result_of d (_exit (context_of inv)) _) as [u|e'].
      * exists e. split; [reflexivity|]. intros _. reflexivity.
      * exists e'. split; [reflexivity|]. discriminate.
Qed.

Lemma update_failure_propagates_and_releases_witness :
  exists e',
    result_of rejecting
      (program sample_hash (UpdateHotkey sample_hotkey (VFunc "cb") sample_options))
      initial = Raised e'
    /\ e' = Error "rejected".
Proof.
  destruct (update_failure_propagates_and_releases sample_hash rejecting
              (UpdateHotkey sample_hotkey (VFunc "cb") sample_options) initial)
    as [_ H].
  destruct (H eq_refl) as [_ H'].
  destruct (H' (Error "rejected") eq_refl) as [e' [Hr He]].
  exists e'. split; [exact Hr | exact (He eq_refl)].
Defined.

(* ================================================================== *)
(** ** Empty patterns and missing callbacks *)
(* ================================================================== *)

Section Factories.

Variable hash : BaseHotkeyContext -> Z.

(** The hotkey factory refuses an empty key name before anything else. *)
Lemma hotkey_empty_key_name_raises (self : BaseHotkeyContext) (func : value)
      (o : hotkey_options) (d : dispatcher) (w : world) :
  run d (hotkey hash self "" func o) w = (w, Raised (Error "invalid key name")).
Proof. reflexivity. Qed.

End Factories.

(** C5.  The hotstring factory has no check of its first argument:
    called with the empty trigger string and the replacement [x], it builds
    the [Hotstring] object and sends the registration call with the pattern
    of two colons to the engine; whether the call fails is up to the
    engine. *)
Theorem hotstring_empty_pattern_reaches_engine :
  forall d : dispatcher,
    run d (hotstring default_context "" (VStr "x") hotstring_defaults) initial =
    (World [Call "Hotstring" [AStr "::"; AStr "x"]] 0,
     match d [] (Call "Hotstring" [AStr "::"; AStr "x"]) with
     | Returned _ => Returned (HotstringObject (MkHotstring "" default_context))
     | Raised e => Raised e
     end).
Proof.
  intro d. simpl. destruct (d [] _); reflexivity.
Qed.

(** C9.  With a key name that is not empty and no callback, the hotkey
    factory returns the decorator -- the factory with the same context, key
    name and options, waiting for the callback -- and leaves the world as it
    found it: no engine call, no lock operation, no [Hotkey].  The hotstring
    factory does the same when the replacement is left out. *)
Theorem factories_without_callback_return_decorator :
  forall (hash : BaseHotkeyContext -> Z) (self : BaseHotkeyContext)
         (d : dispatcher) (w : world),
    (forall (key_name : string) (o : hotkey_options),
        key_name <> "" ->
        run d (hotkey hash self key_name VNone o) w =
        (w, Returned (HotkeyDecorator (HotkeyPartial self key_name o)))
        /\ forall func,
            call_hotkey_partial hash (HotkeyPartial self key_name o) func =
            hotkey hash self key_name func o)
    /\ (forall (string : string) (o : hotstring_options),
        string <> "" ->
        run d (hotstring self string VNone o) w =
        (w, Returned (HotstringDecorator (HotstringPartial self string o)))
        /\ forall replacement,
            call_hotstring_partial (HotstringPartial self string o) replacement =
            hotstring self string replacement o).
Proof.
  intros hash self d w. split.
  - intros key_name o Hne. split; [|reflexivity].
    unfold hotkey. destruct (String.eqb_spec key_name "") as [He|_].
    + contradiction.
    + reflexivity.
  - intros string o _. split; reflexivity.
Qed.

Lemma factories_without_callback_return_decorator_witness :
  run accepting (hotkey sample_hash default_context "^a" VNone hotkey_defaults)
      initial =
  (initial,
   Returned (HotkeyDecorator (HotkeyPartial default_context "^a" hotkey_defaults)))
  /\ run accepting (hotstring default_context "btw" VNone hotstring_defaults)
         initial =
     (initial,
      Returned (HotstringDecorator
                  (HotstringPartial default_context "btw" hotstring_defaults))).
Proof.
  destruct (factories_without_callback_return_decorator
              sample_hash default_context accepting initial) as [Hk Hs].
  split.
  - apply (Hk "^a" hotkey_defaults). discriminate.
  - apply (Hs "btw" hotstring_defaults). discriminate.
Defined.

(* ================================================================== *)
(** ** Key state queries *)
(* ================================================================== *)

Lemma eq_empty_str_false (r : value) : r <> VStr "" -> eq_empty_str r = false.
Proof.
  destruct r as [| | |s|]; try reflexivity.
  intro H. simpl. destruct (String.eqb_spec s ""); [subst; contradiction|reflexivity].
Qed.

Lemma run_get_key_state (d : dispatcher) (key_name : string)
      (mode : option string) (w : world) :
  run d (_get_key_state key_name mode) w =
  (World (trace w ++ [Call "GetKeyState" [AStr key_name; mode_arg mode]])
         (lock_depth w),
   match d (trace w) (Call "GetKeyState" [AStr key_name; mode_arg mode]) with
   | Raised e => Raised e
   | Returned result =>
       if eq_empty_str result then
         Raised (ValueError
           "key_name is invalid or the state of the key could not be determined")
       else Returned (VBool (truthy result))
   end).
Proof.
  unfold _get_key_state. rewrite run_bind, run_ahk_call.
  destruct (d (trace w) _) as [r|e]; [|reflexivity].
  destruct (eq_empty_str r); reflexivity.
Qed.

Lemma snoc_not_self {A} (l : list A) (x : A) : l <> l ++ [x].
Proof.
  intro H. apply (f_equal (@length A)) in H.
  rewrite length_app in H. simpl in H. lia.
Qed.

(** A query that asked the engine ran [_get_key_state] on its key. *)
Lemma ask_reaches_engine (d : dispatcher) (q : key_query) (key_name : string)
      (w : world) :
  calls_of d (ask q key_name) w = trace w ++ [query_call q key_name] ->
  run d (ask q key_name) w =
  run d (_get_key_state key_name
           (match q with Logical => None | Physical => Some "P"
                       | Toggled => Some "T" end)) w.
Proof.
  destruct q; try reflexivity.
  unfold ask, is_key_toggled, calls_of.
  destruct (str_in (lower key_name) toggle_keys); [reflexivity|].
  simpl. intro H. now apply snoc_not_self in H.
Qed.

(** C6.  [get_key_state] and [get_physical_key_state] always ask the
    engine for the state of the key, once, and so does [is_key_toggled] for a
    name it accepts.  When the engine answers the empty string, the query
    raises [ValueError]; when it answers anything else, the query returns
    the boolean [bool(answer)].  For a name it does not accept,
    [is_key_toggled] raises [ValueError] as well: no query ever makes up a
    boolean. *)
Theorem key_state_indeterminate_raises :
  forall (d : dispatcher) (key_name : string) (w : world),
    let settled (query : prog value) (c : call) :=
      calls_of d query w = trace w ++ [c]
      /\ (d (trace w) c = Returned (VStr "") ->
          result_of d query w =
          Raised (ValueError
            "key_name is invalid or the state of the key could not be determined"))
      /\ (forall answer,
             d (trace w) c = Returned answer -> answer <> VStr "" ->
             result_of d query w = Returned (VBool (truthy answer))) in
    settled (get_key_state key_name)
            (Call "GetKeyState" [AStr key_name; AVal VNone])
    /\ settled (get_physical_key_state key_name)
               (Call "GetKeyState" [AStr key_name; AStr "P"])
    /\ (str_in (lower key_name) toggle_keys = true ->
        settled (is_key_toggled key_name)
                (Call "GetKeyState" [AStr key_name; AStr "T"]))
    /\ (str_in (lower key_name) toggle_keys = false ->
        exists msg,
          run d (is_key_toggled key_name) w = (w, Raised (ValueError msg))).
Proof.
  intros d key_name w settled.
  assert (H : forall mode,
             settled (_get_key_state key_name mode)
                     (Call "GetKeyState" [AStr key_name; mode_arg mode])).
  { intro mode. unfold settled, calls_of, result_of.
    rewrite run_get_key_state. cbn [fst snd trace]. split; [reflexivity|]. split.
    - intros ->. reflexivity.
    - intros answer -> Hne. now rewrite (eq_empty_str_false _ Hne). }
  split; [exact (H None)|]. split; [exact (H (Some "P"))|]. split.
  - intros Hin. unfold is_key_toggled. rewrite Hin. exact (H (Some "T")).
  - intros Hout. unfold is_key_toggled. rewrite Hout. eexists. reflexivity.
Qed.

Lemma key_state_indeterminate_raises_witness :
  result_of undetermined (is_key_toggled "CapsLock") initial =
    Raised (ValueError
      "key_name is invalid or the state of the key could not be determined")
  /\ result_of undetermined (get_key_state "a") initial =
    Raised (ValueError
      "key_name is invalid or the state of the key could not be determined")
  /\ result_of accepting (get_physical_key_state "a") initial =
     Returned (VBool true)
  /\ (exists msg,
        run accepting (is_key_toggled "x") initial =
        (initial, Raised (ValueError msg))).
Proof.
  destruct (key_state_indeterminate_raises undetermined "CapsLock" initial)
    as (_ & _ & Htoggled & _).
  destruct (key_state_indeterminate_raises undetermined "a" initial)
    as ((_ & Hlogical & _) & _).
  destruct (key_state_indeterminate_raises accepting "a" initial)
    as (_ & (_ & _ & Hphysical) & _).
  destruct (key_state_indeterminate_raises accepting "x" initial)
    as (_ & _ & _ & Hrejected).
  split; [|split; [|split]].
  - destruct (Htoggled eq_refl) as (_ & Hraise & _). apply Hraise. reflexivity.
  - apply Hlogical. reflexivity.
  - apply (Hphysical (VInt 1)); [reflexivity|discriminate].
  - apply Hrejected. reflexivity.
Defined.

(** The two plain queries always ask the engine. *)
Lemma plain_queries_ask (d : dispatcher) (key_name : string) (w : world) :
  calls_of d (ask Logical key_name) w = trace w ++ [query_call Logical key_name]
  /\ calls_of d (ask Physical key_name) w =
     trace w ++ [query_call Physical key_name].
Proof.
  unfold calls_of, ask, get_key_state, get_physical_key_state.
  rewrite !run_get_key_state. split; reflexivity.
Qed.

(** C7, as the code has it.  A key name whose lower-case form is none of
    [capslock], [numlock], [scrolllock], [insert], [ins] makes
    [is_key_toggled] raise [ValueError] with the world untouched: no engine
    call was made. *)
Theorem is_key_toggled_rejects_other_keys :
  forall (key_name : string) (d : dispatcher) (w : world),
    str_in (lower key_name) toggle_keys = false ->
    run d (is_key_toggled key_name) w =
    (w, Raised (ValueError
                  "key_name must be one of CapsLock, NumLock, ScrollLock, or Insert")).
Proof.
  intros key_name d w H. unfold is_key_toggled. now rewrite H.
Qed.

Lemma is_key_toggled_rejects_other_keys_witness :
  run accepting (is_key_toggled "x") initial =
  (initial, Raised (ValueError
                      "key_name must be one of CapsLock, NumLock, ScrollLock, or Insert")).
Proof.
  apply (is_key_toggled_rejects_other_keys "x" accepting initial). reflexivity.
Defined.

(** C7, as stated, fails: [Ins] is none of the four listed names, in any
    letter case, and [is_key_toggled("Ins")] asks the engine and returns. *)
Lemma is_key_toggled_accepts_ins :
  ~ (forall (key_name : string) (d : dispatcher) (w : world),
        str_in (lower key_name) listed_toggle_keys = false ->
        exists e, run d (is_key_toggled key_name) w = (w, Raised e)).
Proof.
  intro H. destruct (H "Ins" accepting initial eq_refl) as [e He].
  discriminate He.
Qed.

(** A name spelled with the Kelvin sign in place of the last letter of
    [CAPSLOCK] is lower-cased to [capslock] and accepted. *)
Lemma is_key_toggled_accepts_kelvin_sign :
  lower ("CAPSLOC" ++ kelvin_sign) = "capslock"
  /\ run accepting (is_key_toggled ("CAPSLOC" ++ kelvin_sign)) initial =
     (World [Call "GetKeyState" [AStr ("CAPSLOC" ++ kelvin_sign); AStr "T"]] 0,
      Returned (VBool true)).
Proof. split; reflexivity. Qed.

(* ================================================================== *)
(** ** Remapped keys *)
(* ================================================================== *)

Lemma run_two_calls (d : dispatcher) (c1 c2 : call) (w : world) :
  calls_of d ((ahk_call (cmd c1) (args c1) ;; Ret tt) ;;
              (ahk_call (cmd c2) (args c2) ;; Ret tt)) w =
  trace w ++ [c1] ++ (if is_raised (d (trace w) c1) then [] else [c2]).
Proof.
  destruct c1 as [n1 a1], c2 as [n2 a2]. unfold calls_of. simpl.
  destruct (d (trace w) (Call n1 a1)); simpl; [|reflexivity].
  destruct (d (trace w ++ [Call n1 a1]) (Call n2 a2)); simpl;
    now rewrite <- app_assoc.
Qed.

Section Remapping.

Variable hash : BaseHotkeyContext -> Z.

(** The two members built by [remap_key] are the triggers [*<origin>] and
    [*<origin> Up]. *)
Lemma remap_key_members (d : dispatcher) (origin destination : string) (w : world) :
  match result_of d (remap_key hash origin destination) w with
  | Returned rk =>
      key_name (wildcard_origin rk) = ("*" ++ origin)%string
      /\ key_name (wildcard_origin_up rk) = ("*" ++ origin ++ " Up")%string
  | Raised _ => True
  end.
Proof.
  unfold result_of. simpl.
  destruct (d (trace w) _); simpl; [|exact I].
  destruct (d (trace w ++ _) _); simpl; [|exact I].
  split; reflexivity.
Qed.

End Remapping.

(** C8.  [RemappedKey.enable], [.disable] and [.toggle] each send the state
    call of the down-edge member [wildcard_origin] first; the state call of
    the up-edge member [wildcard_origin_up] comes right after it, and is
    sent only if the first one returned. *)
Theorem remapped_key_down_edge_first :
  forall (d : dispatcher) (self : RemappedKey) (w : world),
    let down := wildcard_origin self in
    let up := wildcard_origin_up self in
    calls_of d (RemappedKey_enable self) w =
      trace w ++ [state_call down "On"]
      ++ (if is_raised (d (trace w) (state_call down "On")) then []
          else [state_call up "On"])
    /\ calls_of d (RemappedKey_disable self) w =
      trace w ++ [state_call down "Off"]
      ++ (if is_raised (d (trace w) (state_call down "Off")) then []
          else [state_call up "Off"])
    /\ calls_of d (RemappedKey_toggle self) w =
      trace w ++ [state_call down "Toggle"]
      ++ (if is_raised (d (trace w) (state_call down "Toggle")) then []
          else [state_call up "Toggle"]).
Proof.
  intros d self w down up.
  repeat split;
    [ apply (run_two_calls d (state_call down "On") (state_call up "On"))
    | apply (run_two_calls d (state_call down "Off") (state_call up "Off"))
    | apply (run_two_calls d (state_call down "Toggle") (state_call up "Toggle")) ].
Qed.

(* ================================================================== *)
(** ** The predicate installed by a context *)
(* ================================================================== *)

(** C10.  The predicate that [HotkeyContext(predicate)._enter()] hands to the
    engine is the wrapper.  Called with any arguments, the wrapper calls the
    user predicate -- with no argument if the predicate declares none, with
    the same arguments otherwise -- and returns [bool] of what the predicate
    returned: whenever it returns, it returns a boolean. *)
Theorem installed_predicate_returns_bool :
  forall (predicate : user_predicate) (args : list value),
    (forall (d : dispatcher) (w : world),
        calls_of d (_enter (HotkeyContext predicate)) w =
        trace w ++ [Call "HotkeyContext" [AFun (wrapper predicate)]])
    /\ (parameters predicate = 0 ->
        wrapper predicate args = bool_of (invoke predicate []))
    /\ (parameters predicate <> 0 ->
        wrapper predicate args = bool_of (invoke predicate args))
    /\ (forall v,
        invoke predicate (if Nat.eqb (parameters predicate) 0 then [] else args)
        = Returned v ->
        wrapper predicate args = Returned (VBool (truthy v)))
    /\ (forall r, wrapper predicate args = Returned r -> exists b, r = VBool b).
Proof.
  intros predicate args. split; [|split; [|split; [|split]]].
  - intros d w. unfold calls_of. simpl.
    destruct (d (trace w) _); reflexivity.
  - intro H0. unfold wrapper. now rewrite H0.
  - intro Hn. unfold wrapper.
    destruct (Nat.eqb_spec (parameters predicate) 0); [contradiction|reflexivity].
  - intros v Hv. unfold wrapper.
    destruct (Nat.eqb (parameters predicate) 0); now rewrite Hv.
  - intros r Hr. unfold wrapper in Hr.
    destruct (Nat.eqb (parameters predicate) 0);
      match type of Hr with
      | bool_of ?x = _ => destruct x as [v|e]; simpl in Hr;
                          [injection Hr as <-; now exists (truthy v) | discriminate]
      end.
Qed.

Lemma installed_predicate_returns_bool_witness :
  wrapper always [VInt 7; VStr "x"] = Returned (VBool true)
  /\ (exists b, VBool true = VBool b)
  /\ wrapper same [VStr ""] = bool_of (invoke same [VStr ""]).
Proof.
  destruct (installed_predicate_returns_bool always [VInt 7; VStr "x"])
    as (_ & H0 & _ & Hv & Hb).
  destruct (installed_predicate_returns_bool same [VStr ""])
    as (_ & _ & Hn & _).
  split; [|split].
  - apply (Hv (VInt 1)). reflexivity.
  - apply (Hb (VBool true)). rewrite (H0 eq_refl). reflexivity.
  - apply Hn. discriminate.
Defined.

(* ================================================================== *)
(** ** The lock serializes registrations *)
(* ================================================================== *)

Module ThreadsFacts.
Import Threads.

Lemma set_thread_same {A} i (p : A) f : set_thread i p f i = p.
Proof. unfold set_thread. now rewrite Nat.eqb_refl. Qed.

Lemma set_thread_other {A} i j (p : A) f : j <> i -> set_thread i p f j = f j.
Proof.
  intro H. unfold set_thread. destruct (Nat.eqb_spec j i); [contradiction|reflexivity].
Qed.

Lemma same_id_true a b : same_id a b = true <-> a = b.
Proof.
  destruct a as [i k], b as [j l]. unfold same_id. simpl.
  rewrite andb_true_iff, !Nat.eqb_eq. split; [intros [-> ->]; reflexivity|].
  intros [= -> ->]. split; reflexivity.
Qed.

Lemma guarded_call_outside (ctx : BaseHotkeyContext) (c : call) :
  outside (guarded_call ctx c).
Proof.
  destruct c as [name xs]. destruct ctx as [|p]; simpl; intros _.
  - intros [v|e]; simpl; intros _; exact I.
  - intros [v|e]; simpl.
    + intros [v'|e']; simpl; intros [v''|e'']; simpl; intros _; exact I.
    + intros _. exact I.
Qed.

Lemma follows_guarded_call ctx c :
  follows (guarded_call ctx c) (enter_calls ctx ++ [c] ++ exit_calls ctx).
Proof.
  destruct c as [name xs]. destruct ctx as [|p]; simpl; intros _.
  - split; [reflexivity|]. intros [v|e]; simpl; intros _; exact I.
  - split; [reflexivity|]. intros [v|e]; simpl.
    + split; [reflexivity|]. intros [v'|e']; simpl; (split; [reflexivity|]);
        intros [v''|e'']; simpl; intros _; exact I.
    + intros _. exact I.
Qed.

Lemma outside_not_idle p : outside p -> idle p -> False.
Proof. destruct p as [| |[] ?]; simpl; tauto. Qed.

Lemma inside_not_idle p : inside p -> idle p -> False.
Proof. destruct p as [| |[] ?]; simpl; tauto. Qed.

Lemma inside_not_outside p : inside p -> outside p -> False.
Proof. destruct p as [| |[] ?]; simpl; tauto. Qed.

Lemma nth_error_snoc {A} (l : list A) (x : A) (n : nat) (y : A) :
  nth_error (l ++ [x]) n = Some y ->
  nth_error l n = Some y \/ (n = length l /\ y = x).
Proof.
  intro H. destruct (Nat.lt_ge_cases n (length l)) as [Hlt|Hge].
  - left. now rewrite nth_error_app1 in H.
  - right. rewrite nth_error_app2 in H by exact Hge.
    destruct (n - length l) as [|m] eqn:E; simpl in H.
    + injection H as <-. split; [lia|reflexivity].
    + destruct m; discriminate.
Qed.

Lemma nth_error_in_range {A} (l : list A) (n : nat) (y : A) :
  nth_error l n = Some y -> n < length l.
Proof. intro H. apply nth_error_Some. congruence. Qed.

Lemma calls_by_snoc id id' c l :
  calls_by id (l ++ [(id', c)]) =
  calls_by id l ++ (if same_id id' id then [c] else []).
Proof.
  unfold calls_by. rewrite filter_app, map_app. simpl.
  destruct (same_id id' id); reflexivity.
Qed.

Lemma calls_by_none id l :
  (forall p e, nth_error l p = Some e -> fst e <> id) -> calls_by id l = [].
Proof.
  unfold calls_by. induction l as [|e l IH]; intro H; [reflexivity|].
  simpl. destruct (same_id (fst e) id) eqn:E.
  - apply same_id_true in E. exfalso. exact (H 0 e eq_refl E).
  - apply IH. intros p e' Hp. exact (H (S p) e' Hp).
Qed.

Section Run.

Variable hash : BaseHotkeyContext -> Z.
Variable plans : list (list invocation).

Lemma start_outside_or_idle i k :
  outside (start hash plans i k) \/ idle (start hash plans i k).
Proof.
  unfold start. destruct (planned plans i k) as [inv|].
  - left. rewrite program_guarded. apply guarded_call_outside.
  - right. exact I.
Qed.

Lemma start_follows i k :
  follows (start hash plans i k) (planned_calls hash plans (i, k)).
Proof.
  unfold start, planned_calls. simpl. destruct (planned plans i k) as [inv|].
  - rewrite program_guarded. apply follows_guarded_call.
  - exact I.
Qed.

Lemma spawn_invariant : invariant hash plans (spawn hash plans).
Proof.
  constructor; simpl.
  - intros _ i. apply start_outside_or_idle.
  - discriminate.
  - intros [|p] e H; discriminate.
  - intros i _ [|p] e H; discriminate.
  - intros [|p] q a b _ H; discriminate.
  - intros [|p] q r a b c _ _ H; discriminate.
  - intros i k. exists (planned_calls hash plans (i, k)). split; [reflexivity|].
    intros ->. apply start_follows.
Qed.

Lemma step_invariant i answer s :
  invariant hash plans s -> invariant hash plans (step_thread hash plans i answer s).
Proof.
  intros Hinv.
  pose proof Hinv as [Hfree Hheld Hrank Hfresh Hdone Hserial Hplan].
  unfold step_thread.
  destruct (pool s i) as [u|e|[| |c] k] eqn:Hi; try exact Hinv.
  - (* the thread goes on to its next invocation *)
    destruct (planned plans i (S (rank s i))) as [inv|] eqn:Hnext; [|exact Hinv].
    assert (Hout : outside (program hash inv))
      by (rewrite program_guarded; apply guarded_call_outside).
    assert (Hnew : forall p e, nth_error (log s) p = Some e ->
                               fst e <> (i, S (rank s i))).
    { intros p e Hp E. pose proof (Hrank p e Hp) as H. rewrite E in H. simpl in H. lia. }
    constructor; simpl.
    + intros Ho j. destruct (Nat.eq_dec j i) as [->|Hne].
      * left. now rewrite set_thread_same.
      * rewrite set_thread_other by exact Hne. apply (Hfree Ho).
    + intros o n Ho. destruct (Hheld o n Ho) as (Hn & Hin & Hothers).
      assert (Hoi : o <> i).
      { intros ->. rewrite Hi in Hin. destruct Hin. }
      split; [exact Hn|]. split.
      * now rewrite set_thread_other.
      * intros j Hj. destruct (Nat.eq_dec j i) as [->|Hne].
        -- left. now rewrite set_thread_same.
        -- rewrite set_thread_other by exact Hne. apply Hothers, Hj.
    + intros p e Hp. pose proof (Hrank p e Hp) as H.
      destruct (Nat.eq_dec (fst (fst e)) i) as [E|Hne].
      * rewrite E, set_thread_same. rewrite E in H. lia.
      * now rewrite set_thread_other.
    + intros j Hj p e Hp. destruct (Nat.eq_dec j i) as [->|Hne].
      * rewrite set_thread_same. apply (Hnew p e Hp).
      * rewrite !set_thread_other in * by exact Hne. apply (Hfresh j Hj p e Hp).
    + intros p q a b Hpq Ha Hb Hab.
      pose proof (Hdone p q a b Hpq Ha Hb Hab) as Hfin.
      pose proof (Hrank p a Ha) as Hle.
      unfold finished in *. simpl.
      destruct (Nat.eq_dec (fst (fst a)) i) as [E|Hne].
      * left. rewrite E, set_thread_same. rewrite E in Hle. lia.
      * now rewrite !set_thread_other.
    + exact Hserial.
    + intros j k'. destruct (Hplan j k') as [rest [Hp Hf]].
      destruct (Nat.eq_dec j i) as [->|Hne].
      * rewrite !set_thread_same.
        destruct (Nat.eq_dec k' (S (rank s i))) as [->|Hk].
        -- exists (planned_calls hash plans (i, S (rank s i))).
           rewrite (calls_by_none _ _ Hnew). split; [reflexivity|]. intros _.
           unfold planned_calls. simpl. rewrite Hnext.
           rewrite program_guarded. apply follows_guarded_call.
        -- exists rest. split; [exact Hp|]. intro. contradiction.
      * rewrite !set_thread_other by exact Hne. exists rest. split; assumption.
  - (* acquire *)
    destruct (owner s) as [[j n]|] eqn:Ho.
    + destruct (Nat.eqb_spec j i) as [->|Hji]; [|exact Hinv].
      destruct (Hheld i n eq_refl) as (_ & Hin & _).
      rewrite Hi in Hin. destruct Hin.
    + assert (Hout : outside (pool s i)).
      { destruct (Hfree eq_refl i) as [H|H]; [exact H|]. rewrite Hi in H. destruct H. }
      pose proof Hout as Hk. rewrite Hi in Hk. simpl in Hk.
      constructor; simpl.
      * discriminate.
      * intros o n [= <- <-]. split; [reflexivity|]. split.
        -- rewrite set_thread_same. apply Hk.
        -- intros j Hj. rewrite set_thread_other by exact Hj. apply (Hfree eq_refl).
      * exact Hrank.
      * intros j Hj p e Hp.
        destruct (Nat.eq_dec j i) as [->|Hne].
        -- apply (Hfresh i Hout p e Hp).
        -- rewrite set_thread_other in Hj by exact Hne. apply (Hfresh j Hj p e Hp).
      * intros p q a b Hpq Ha Hb Hab.
        destruct (Hdone p q a b Hpq Ha Hb Hab) as [Hlt|Hidle]; [left; exact Hlt|].
        right. simpl. destruct (Nat.eq_dec (fst (fst a)) i) as [E|Hne].
        -- rewrite E, Hi in Hidle. destruct Hidle.
        -- now rewrite set_thread_other.
      * exact Hserial.
      * intros j k'. destruct (Hplan j k') as [rest [Hp Hf]]. exists rest.
        split; [exact Hp|]. intro Hk'. specialize (Hf Hk').
        destruct (Nat.eq_dec j i) as [->|Hne].
        -- rewrite set_thread_same. rewrite Hi in Hf. apply Hf.
        -- now rewrite set_thread_other.
  - (* release *)
    destruct (owner s) as [[j [|n]]|] eqn:Ho; try exact Hinv.
    destruct (Nat.eqb_spec j i) as [->|Hji]; [|exact Hinv].
    destruct (Hheld i (S n) eq_refl) as (Hn & Hin & Hothers).
    injection Hn as ->. rewrite Hi in Hin. simpl in Hin.
    constructor; simpl.
    + intros _ j. destruct (Nat.eq_dec j i) as [->|Hne].
      * right. rewrite set_thread_same. apply Hin.
      * rewrite set_thread_other by exact Hne. apply Hothers, Hne.
    + discriminate.
    + exact Hrank.
    + intros j Hj p e Hp.
      destruct (Nat.eq_dec j i) as [->|Hne].
      * rewrite set_thread_same in Hj.
        exfalso. exact (outside_not_idle _ Hj (Hin _)).
      * rewrite set_thread_other in Hj by exact Hne. apply (Hfresh j Hj p e Hp).
    + intros p q a b Hpq Ha Hb Hab.
      destruct (Hdone p q a b Hpq Ha Hb Hab) as [Hlt|Hidle]; [left; exact Hlt|].
      right. simpl. destruct (Nat.eq_dec (fst (fst a)) i) as [E|Hne].
      * rewrite E, Hi in Hidle. destruct Hidle.
      * now rewrite set_thread_other.
    + exact Hserial.
    + intros j k'. destruct (Hplan j k') as [rest [Hp Hf]]. exists rest.
      split; [exact Hp|]. intro Hk'. specialize (Hf Hk').
      destruct (Nat.eq_dec j i) as [->|Hne].
      * rewrite set_thread_same. rewrite Hi in Hf. apply Hf.
      * now rewrite set_thread_other.
  - (* engine call *)
    assert (Hown : exists n, owner s = Some (i, n)).
    { destruct (owner s) as [[j n]|] eqn:Ho.
      - destruct (Nat.eq_dec i j) as [->|Hne]; [now exists n|].
        destruct (Hheld j n eq_refl) as (_ & _ & Hothers).
        destruct (Hothers i Hne) as [H|H]; rewrite Hi in H; destruct H.
      - destruct (Hfree eq_refl i) as [H|H]; rewrite Hi in H; destruct H. }
    destruct Hown as [n Ho].
    destruct (Hheld i n Ho) as (Hn & Hin & Hothers).
    rewrite Hi in Hin. simpl in Hin.
    assert (Hpast : forall p a, nth_error (log s) p = Some a ->
                                fst a <> (i, rank s i) -> finished s (fst a)).
    { intros p a Ha Hne. pose proof (Hrank p a Ha) as Hle.
      destruct a as [[j k'] ca]. simpl in *. unfold finished. simpl.
      destruct (Nat.eq_dec j i) as [->|Hji].
      - left. assert (k' <> rank s i) by congruence. lia.
      - destruct (Hothers j Hji) as [H|H]; [|right; exact H].
        left. pose proof (Hfresh j H p _ Ha) as Hf. simpl in Hf.
        assert (k' <> rank s j) by congruence. lia. }
    assert (Hkeep : forall id, finished s id ->
              finished (State (set_thread i (k answer) (pool s)) (rank s) (owner s)
                              (log s ++ [((i, rank s i), c)])) id).
    { intros [j k'] [Hlt|Hidle]; [left; exact Hlt|]. right. simpl in *.
      destruct (Nat.eq_dec j i) as [->|Hne].
      - rewrite Hi in Hidle. destruct Hidle.
      - now rewrite set_thread_other. }
    constructor; simpl.
    + rewrite Ho. discriminate.
    + intros o m Hom. rewrite Ho in Hom. injection Hom as <- <-.
      split; [exact Hn|]. split.
      * rewrite set_thread_same. apply Hin.
      * intros j Hj. rewrite set_thread_other by exact Hj. apply Hothers, Hj.
    + intros p e Hp. apply nth_error_snoc in Hp. destruct Hp as [Hp|[_ ->]].
      * apply (Hrank p e Hp).
      * simpl. lia.
    + intros j Hj p e Hp.
      destruct (Nat.eq_dec j i) as [->|Hne].
      * rewrite set_thread_same in Hj.
        exfalso. exact (inside_not_outside _ (Hin answer) Hj).
      * rewrite set_thread_other in Hj by exact Hne.
        apply nth_error_snoc in Hp. destruct Hp as [Hp|[_ ->]].
        -- apply (Hfresh j Hj p e Hp).
        -- simpl. congruence.
    + intros p q a b Hpq Ha Hb Hab.
      apply nth_error_snoc in Ha. apply nth_error_snoc in Hb.
      destruct Ha as [Ha|[-> _]];
        [|destruct Hb as [Hb|[Hq _]]; [apply nth_error_in_range in Hb|]; lia].
      apply Hkeep.
      destruct Hb as [Hb|[_ ->]].
      * apply (Hdone p q a b Hpq Ha Hb Hab).
      * apply (Hpast p a Ha). exact Hab.
    + intros p q r a b c0 Hpq Hqr Ha Hb Hc Hac.
      apply nth_error_snoc in Hc. destruct Hc as [Hc|[-> ->]].
      * pose proof (nth_error_in_range _ _ _ Hc) as Hr.
        rewrite nth_error_app1 in Ha by lia.
        rewrite nth_error_app1 in Hb by lia.
        apply (Hserial p q r a b c0 Hpq Hqr Ha Hb Hc Hac).
      * rewrite nth_error_app1 in Ha by lia.
        rewrite nth_error_app1 in Hb by lia.
        simpl in Hac.
        destruct a as [[ja ka] ca], b as [[jb kb] cb]. simpl in *.
        destruct (Nat.eq_dec jb ja) as [->|Hj];
          [destruct (Nat.eq_dec kb ka) as [->|Hk]; [reflexivity|]|];
          exfalso;
          (assert (Hfin : finished s (ja, ka))
            by (apply (Hdone p q _ _ Hpq Ha Hb); simpl; congruence));
          injection Hac as -> ->;
          (destruct Hfin as [Hlt|Hidle]; simpl in *;
           [lia | rewrite Hi in Hidle; destruct Hidle]).
    + intros j k'. destruct (Hplan j k') as [rest [Hp Hf]].
      rewrite calls_by_snoc.
      destruct (same_id (i, rank s i) (j, k')) eqn:E.
      * apply same_id_true in E. injection E as <- <-.
        specialize (Hf eq_refl). rewrite Hi in Hf. simpl in Hf.
        destruct rest as [|c' rest']; [destruct Hf|]. destruct Hf as [<- Hf].
        exists rest'. split.
        -- rewrite Hp, <- app_assoc. reflexivity.
        -- intros _. rewrite set_thread_same. apply Hf.
      * exists rest. rewrite app_nil_r. split; [exact Hp|].
        intros ->. destruct (Nat.eq_dec j i) as [->|Hne].
        -- rewrite <- not_true_iff_false, same_id_true in E. congruence.
        -- rewrite set_thread_other by exact Hne. now apply Hf.
Qed.

Lemma exec_invariant sch :
  forall s, invariant hash plans s -> invariant hash plans (exec hash plans sch s).
Proof.
  induction sch as [|[i answer] sch IH]; intros s Hs; simpl.
  - exact Hs.
  - apply IH, step_invariant, Hs.
Qed.

End Run.
End ThreadsFacts.

(** C3.  Threads that each run a sequence of [Hotkey.update] and
    [Hotstring.update] calls, on any triggers and contexts, scheduled in any
    order and with any answers from the engine: the calls the engine has
    received from one invocation are an initial part of that invocation's own
    enter / register / exit sequence, and in the order the engine receives
    the calls, no call of another invocation stands between two calls of one
    invocation. *)
Theorem guard_serializes_triples :
  forall (hash : BaseHotkeyContext -> Z) (plans : list (list invocation))
         (sch : Threads.schedule),
    let s := Threads.exec hash plans sch (Threads.spawn hash plans) in
    (forall i k inv, Threads.planned plans i k = Some inv ->
        exists rest,
          Threads.triple hash inv =
          Threads.calls_by (i, k) (Threads.log s) ++ rest)
    /\ (forall p q r a b c, p < q -> q < r ->
        nth_error (Threads.log s) p = Some a ->
        nth_error (Threads.log s) q = Some b ->
        nth_error (Threads.log s) r = Some c ->
        fst a = fst c -> fst b = fst a).
Proof.
  intros hash plans sch s.
  assert (Hinv : Threads.invariant hash plans s)
    by apply ThreadsFacts.exec_invariant, ThreadsFacts.spawn_invariant.
  split.
  - intros i k inv Hi.
    destruct (Threads.inv_plan _ _ _ Hinv i k) as [rest [Hp _]].
    exists rest. unfold Threads.planned_calls in Hp. simpl in Hp.
    now rewrite Hi in Hp.
  - apply (Threads.inv_serial _ _ _ Hinv).
Qed.

Lemma guard_serializes_triples_witness :
  let s := Threads.exec sample_hash sample_plans sample_schedule
                        (Threads.spawn sample_hash sample_plans) in
  map fst (Threads.log s) =
    [(0, 0); (0, 0); (0, 0); (1, 0); (1, 0); (1, 0); (0, 1); (0, 1); (0, 1)]
  /\ (exists rest,
        Threads.triple sample_hash
          (UpdateHotstring sample_hotstring (VStr "by the way") hotstring_defaults)
        = Threads.calls_by (1, 0) (Threads.log s) ++ rest)
  /\ (exists a b c,
        nth_error (Threads.log s) 6 = Some a
        /\ nth_error (Threads.log s) 7 = Some b
        /\ nth_error (Threads.log s) 8 = Some c
        /\ fst b = fst a).
Proof.
  intro s.
  destruct (guard_serializes_triples sample_hash sample_plans sample_schedule)
    as [Hplan Hserial].
  split; [reflexivity|]. split.
  - apply (Hplan 1 0). reflexivity.
  - do 3 eexists. split; [reflexivity|]. split; [reflexivity|].
    split; [reflexivity|].
    apply (Hserial 6 7 8 _ _ _ ltac:(lia) ltac:(lia) eq_refl eq_refl eq_refl).
    reflexivity.
Defined.

(* ================================================================== *)
(** ** Lock keys, waiting for keys, send level *)
(* ================================================================== *)

Lemma run_call_drop (d : dispatcher) (name : string) (xs : list arg) (w : world) :
  run d (ahk_call name xs ;; Ret tt) w =
  (World (trace w ++ [Call name xs]) (lock_depth w), drop (d (trace w) (Call name xs))).
Proof.
  rewrite run_bind, run_ahk_call. destruct (d (trace w) _); reflexivity.
Qed.

(** X1.  [_set_key_state] sends its command once, with one word: [AlwaysOn]
    for a string that reads [always_on] or [alwayson] in any letter case,
    [AlwaysOff] for one that reads [always_off] or [alwaysoff], [On] for any
    other truthy state, [Off] for a falsy one.  A string such as [off],
    which is not empty, therefore switches the key on. *)
Theorem set_key_state_word :
  forall (d : dispatcher) (cmd : string) (state : value) (w : world),
    let sends (word : string) :=
      run d (_set_key_state cmd state) w =
      (World (trace w ++ [Call cmd [AStr word]]) (lock_depth w),
       drop (d (trace w) (Call cmd [AStr word]))) in
    (forall s, state = VStr s ->
               str_in (lower s) ["always_on"; "alwayson"] = true ->
               sends "AlwaysOn")
    /\ (forall s, state = VStr s ->
                  str_in (lower s) ["always_off"; "alwaysoff"] = true ->
                  sends "AlwaysOff")
    /\ ((forall s, state = VStr s ->
                   str_in (lower s)
                          ["always_on"; "alwayson"; "always_off"; "alwaysoff"]
                   = false) ->
        truthy state = true -> sends "On")
    /\ (truthy state = false -> sends "Off").
Proof.
  intros d cmd state w sends. subst sends. cbv beta.
  unfold _set_key_state. split; [|split; [|split]].
  - intros s -> H. cbn [str_lower_in]. rewrite H. apply run_call_drop.
  - intros s -> H. cbn [str_lower_in].
    assert (Hon : str_in (lower s) ["always_on"; "alwayson"] = false).
    { cbn [str_in] in H. rewrite orb_false_r in H.
      apply orb_true_iff in H. destruct H as [H|H];
        apply String.eqb_eq in H; rewrite H; reflexivity. }
    rewrite Hon, H. apply run_call_drop.
  - intros H Ht.
    assert (Hon : str_lower_in state ["always_on"; "alwayson"] = false
                  /\ str_lower_in state ["always_off"; "alwaysoff"] = false).
    { destruct state as [| | |s|]; try (split; reflexivity).
      specialize (H s eq_refl). cbn [str_lower_in str_in] in *.
      repeat (apply orb_false_iff in H; destruct H as [? H]).
      split; repeat (apply orb_false_iff; split); assumption || reflexivity. }
    destruct Hon as [-> ->]. rewrite Ht. apply run_call_drop.
  - intros Ht.
    assert (Hon : str_lower_in state ["always_on"; "alwayson"] = false
                  /\ str_lower_in state ["always_off"; "alwaysoff"] = false).
    { destruct state as [| | |s|]; try (split; reflexivity).
      destruct s as [|c s]; [split; reflexivity|discriminate]. }
    destruct Hon as [-> ->]. rewrite Ht. apply run_call_drop.
Qed.

Lemma set_key_state_word_witness :
  calls_of accepting (set_caps_lock_state (VStr "Always_On")) initial =
    [Call "SetCapsLockState" [AStr "AlwaysOn"]]
  /\ calls_of accepting (set_num_lock_state (VStr "ALWAYSOFF")) initial =
    [Call "SetNumLockState" [AStr "AlwaysOff"]]
  /\ calls_of accepting (set_scroll_lock_state (VStr "off")) initial =
    [Call "SetScrollLockState" [AStr "On"]]
  /\ calls_of accepting (set_caps_lock_state (VInt 0)) initial =
    [Call "SetCapsLockState" [AStr "Off"]].
Proof.
  unfold calls_of, set_caps_lock_state, set_num_lock_state, set_scroll_lock_state.
  destruct (set_key_state_word accepting "SetCapsLockState" (VStr "Always_On")
              initial) as (Hon & _).
  destruct (set_key_state_word accepting "SetNumLockState" (VStr "ALWAYSOFF")
              initial) as (_ & Hoff & _).
  destruct (set_key_state_word accepting "SetScrollLockState" (VStr "off")
              initial) as (_ & _ & Hother & _).
  destruct (set_key_state_word accepting "SetCapsLockState" (VInt 0)
              initial) as (_ & _ & _ & Hfalsy).
  split; [|split; [|split]].
  - rewrite (Hon "Always_On" eq_refl eq_refl). reflexivity.
  - rewrite (Hoff "ALWAYSOFF" eq_refl eq_refl). reflexivity.
  - rewrite Hother; [reflexivity| |reflexivity].
    intros s [= <-]. reflexivity.
  - rewrite (Hfalsy eq_refl). reflexivity.
Defined.

(** X2.  [key_wait_released] asks the engine once, with the options [L] (if
    the logical state is asked for) and [T<timeout>] (if a timeout is given);
    [key_wait_pressed] asks with the same options after a [D].  Both answer
    [True] exactly when what the engine returned is falsy, and let an
    exception of the engine through. *)
Theorem key_wait_options_and_result :
  forall (d : dispatcher) (key_name : string) (logical_state : bool)
         (timeout : option Z) (w : world),
    let options :=
      ((if logical_state then "L" else "")
       ++ match timeout with Some t => "T" ++ format_int t | None => "" end)%string in
    let outcome_for c :=
      (World (trace w ++ [c]) (lock_depth w),
       match d (trace w) c with
       | Returned timed_out => Returned (VBool (negb (truthy timed_out)))
       | Raised e => Raised e
       end) in
    run d (key_wait_released key_name logical_state timeout) w =
      outcome_for (Call "KeyWait" [AStr key_name; AStr options])
    /\ run d (key_wait_pressed key_name logical_state timeout) w =
      outcome_for (Call "KeyWait" [AStr key_name; AStr ("D" ++ options)%string]).
Proof.
  intros d key_name logical_state timeout w options outcome_for.
  subst options outcome_for.
  unfold key_wait_released, key_wait_pressed, _key_wait.
  destruct logical_state, timeout as [t|]; split; simpl;
    destruct (d (trace w) _); reflexivity.
Qed.

(** X3.  [send_level] raises [ValueError] without calling the engine when
    the level is below 0 or above 100, and sends the level once otherwise. *)
Theorem send_level_bounds :
  forall (d : dispatcher) (level : Z) (w : world),
    ((level < 0 \/ 100 < level)%Z ->
     run d (send_level level) w =
     (w, Raised (ValueError "level must be between 0 and 100")))
    /\ ((0 <= level <= 100)%Z ->
        calls_of d (send_level level) w =
        trace w ++ [Call "SendLevel" [AVal (VInt level)]]).
Proof.
  intros d level w. unfold send_level. split; intro H.
  - assert (E : ((0 <=? level)%Z && (level <=? 100)%Z) = false).
    { apply andb_false_iff. rewrite !Z.leb_gt. lia. }
    now rewrite E.
  - assert (E : ((0 <=? level)%Z && (level <=? 100)%Z) = true).
    { apply andb_true_iff. rewrite !Z.leb_le. lia. }
    rewrite E. unfold calls_of. simpl.
    destruct (d (trace w) _); reflexivity.
Qed.

Lemma send_level_bounds_witness :
  run accepting (send_level 101) initial =
    (initial, Raised (ValueError "level must be between 0 and 100"))
  /\ calls_of accepting (send_level 100) initial =
     [Call "SendLevel" [AVal (VInt 100)]].
Proof.
  split.
  - apply (proj1 (send_level_bounds accepting 101 initial)). right. reflexivity.
  - apply (proj2 (send_level_bounds accepting 100 initial)). split; discriminate.
Defined.

(* ================================================================== *)
(** ** The factories, continued *)
(* ================================================================== *)

(** X4.  Given a key name that is not empty and a second argument that is
    neither [None] nor callable, the hotkey factory is the program that
    raises [TypeError] and does nothing else: it performs no action, neither
    an engine call nor a lock operation, so that every run of it leaves the
    world as it was. *)
Theorem hotkey_rejects_non_callable :
  forall (hash : BaseHotkeyContext -> Z) (self : BaseHotkeyContext)
         (key_name : string) (func : value) (o : hotkey_options),
    key_name <> "" -> func <> VNone -> callable func = false ->
    hotkey hash self key_name func o = Raise (TypeError_not_callable func)
    /\ forall (d : dispatcher) (w : world),
        run d (hotkey hash self key_name func o) w =
        (w, Raised (TypeError_not_callable func)).
Proof.
  intros hash self key_name func o Hk Hf Hc.
  assert (E : hotkey hash self key_name func o =
              Raise (TypeError_not_callable func)).
  { unfold hotkey. destruct (String.eqb_spec key_name ""); [contradiction|].
    destruct func; try contradiction; try discriminate; reflexivity. }
  split; [exact E|]. intros d w. now rewrite E.
Qed.

Lemma hotkey_rejects_non_callable_witness :
  hotkey sample_hash default_context "^a" (VStr "AltTab") hotkey_defaults =
  Raise (TypeError_not_callable (VStr "AltTab")).
Proof.
  apply hotkey_rejects_non_callable; [discriminate | discriminate | reflexivity].
Defined.

(** X5.  Used as decorators, the factories do what they do when called with
    both arguments at once: the same engine calls, the same lock depth, the
    same result or exception -- for every key name or string, every second
    argument and every choice of options. *)
Theorem decorator_same_as_direct_call :
  forall (hash : BaseHotkeyContext -> Z) (self : BaseHotkeyContext)
         (d : dispatcher) (w : world),
    (forall key_name o func,
        run d (hotkey_decorated hash self key_name o func) w =
        run d (hotkey hash self key_name func o) w)
    /\ (forall string o replacement,
        run d (hotstring_decorated self string o replacement) w =
        run d (hotstring self string replacement o) w).
Proof.
  intros hash self d w. split.
  - intros key_name o func. unfold hotkey_decorated. rewrite run_bind.
    unfold hotkey at 1. destruct (String.eqb key_name "") eqn:E.
    + unfold hotkey. rewrite E. reflexivity.
    + reflexivity.
  - intros string o replacement. reflexivity.
Qed.

(** X6.  [remap_key] registers the trigger [*<origin>] and then
    [*<origin> Up], both in the default context and with no option.  If the
    first registration raises, the second is not attempted; if the second
    raises, [remap_key] raises after the first one went through, and sends
    nothing to take it back. *)
Theorem remap_key_registrations :
  forall (hash : BaseHotkeyContext -> Z) (d : dispatcher)
         (origin_key destination_key : string) (w : world),
    let down := remap_down_call hash origin_key in
    let up := remap_up_call hash origin_key in
    run d (remap_key hash origin_key destination_key) w =
    match d (trace w) down with
    | Raised e => (World (trace w ++ [down]) (lock_depth w), Raised e)
    | Returned _ =>
        (World ((trace w ++ [down]) ++ [up]) (lock_depth w),
         match d (trace w ++ [down]) up with
         | Raised e => Raised e
         | Returned _ =>
             Returned (MkRemappedKey
                         (MkHotkey ("*" ++ origin_key)%string default_context)
                         (MkHotkey ("*" ++ origin_key ++ " Up")%string
                                   default_context))
         end)
    end.
Proof.
  intros hash d origin_key destination_key w down up. subst down up.
  unfold remap_down_call, remap_up_call, Hotkey_call. simpl.
  destruct (d (trace w) _); simpl; [|reflexivity].
  destruct (d (trace w ++ _) _); reflexivity.
Qed.

(* ================================================================== *)
(** ** Letter case *)
(* ================================================================== *)

Lemma lower_ascii_idempotent (c : ascii) : lower_ascii (lower_ascii c) = lower_ascii c.
Proof. destruct c as [[] [] [] [] [] [] [] []]; reflexivity. Qed.

Lemma lower_ascii_eqb_226 (c : ascii) :
  Ascii.eqb (lower_ascii c) "226" = Ascii.eqb c "226".
Proof. destruct c as [[] [] [] [] [] [] [] []]; reflexivity. Qed.

Lemma lower_ascii_eqb_132 (c : ascii) :
  Ascii.eqb (lower_ascii c) "132" = Ascii.eqb c "132".
Proof. destruct c as [[] [] [] [] [] [] [] []]; reflexivity. Qed.

Lemma lower_ascii_eqb_170 (c : ascii) :
  Ascii.eqb (lower_ascii c) "170" = Ascii.eqb c "170".
Proof. destruct c as [[] [] [] [] [] [] [] []]; reflexivity. Qed.

(** [lower], one character (or one Kelvin sign) at a time. *)
Lemma lower_cons (c : ascii) (s : string) :
  lower (String c s) =
  if (Ascii.eqb c "226" && kelvin_tail s)%bool
  then String "k" (lower (after_kelvin_tail s))
  else String (lower_ascii c) (lower s).
Proof.
  destruct s as [|c2 [|c3 rest]]; cbn [lower kelvin_tail after_kelvin_tail];
    rewrite ?andb_false_r; try reflexivity.
  now rewrite andb_assoc.
Qed.

Lemma kelvin_tail_cons (c : ascii) (s : string) :
  kelvin_tail (String c s) =
  (Ascii.eqb c "132"
   && match s with String c' _ => Ascii.eqb c' "170" | EmptyString => false end)%bool.
Proof. destruct s; cbn [kelvin_tail]; now rewrite ?andb_false_r. Qed.

(** Lower-casing never brings a Kelvin sign about. *)
Lemma kelvin_tail_lower (s : string) :
  kelvin_tail (lower s) = true -> kelvin_tail s = true.
Proof.
  destruct s as [|c2 t]; [discriminate|].
  rewrite lower_cons.
  destruct (Ascii.eqb c2 "226" && kelvin_tail t)%bool;
    rewrite !kelvin_tail_cons; [discriminate|].
  rewrite lower_ascii_eqb_132.
  destruct t as [|c3 r]; [now rewrite andb_false_r|].
  rewrite lower_cons.
  destruct (Ascii.eqb c3 "226" && kelvin_tail r)%bool.
  - now rewrite andb_false_r.
  - now rewrite lower_ascii_eqb_170.
Qed.

Lemma after_kelvin_tail_length (s : string) :
  String.length (after_kelvin_tail s) <= String.length s.
Proof. destruct s as [|c [|c' r]]; simpl; lia. Qed.

Lemma lower_idempotent_upto (n : nat) :
  forall s, String.length s <= n -> lower (lower s) = lower s.
Proof.
  induction n as [|n IH]; intros [|c s] Hn; try reflexivity; simpl in Hn; [lia|].
  rewrite (lower_cons c s).
  destruct (Ascii.eqb c "226" && kelvin_tail s)%bool eqn:E.
  - rewrite lower_cons. cbn [Ascii.eqb Bool.eqb andb].
    rewrite IH; [reflexivity|].
    pose proof (after_kelvin_tail_length s). lia.
  - rewrite lower_cons.
    destruct (Ascii.eqb (lower_ascii c) "226" && kelvin_tail (lower s))%bool eqn:E'.
    + apply andb_true_iff in E'. destruct E' as [E1 E2].
      rewrite lower_ascii_eqb_226 in E1. apply kelvin_tail_lower in E2.
      rewrite E1, E2 in E. discriminate.
    + rewrite lower_ascii_idempotent, IH; [reflexivity|lia].
Qed.

Lemma lower_idempotent (s : string) : lower (lower s) = lower s.
Proof. exact (lower_idempotent_upto (String.length s) s (Nat.le_refl _)). Qed.

(** X7.  A name that [is_key_toggled] accepts is passed to the engine as it
    was typed, once, with mode [T]; and a name is turned down without an
    engine call exactly when its lower-case form is. *)
Theorem is_key_toggled_ignores_case :
  forall (key_name : string) (d : dispatcher) (w : world),
    (str_in (lower key_name) toggle_keys = true ->
     calls_of d (is_key_toggled key_name) w =
     trace w ++ [Call "GetKeyState" [AStr key_name; AStr "T"]])
    /\ (calls_of d (is_key_toggled (lower key_name)) w = trace w <->
        calls_of d (is_key_toggled key_name) w = trace w).
Proof.
  intros key_name d w. unfold is_key_toggled, calls_of. split.
  - intros ->. simpl negb. cbv iota. now rewrite run_get_key_state.
  - rewrite lower_idempotent.
    destruct (str_in (lower key_name) toggle_keys); simpl negb; cbv iota.
    + rewrite !run_get_key_state. simpl. split; intro H;
        now apply eq_sym, snoc_not_self in H.
    + simpl. tauto.
Qed.

Lemma is_key_toggled_ignores_case_witness :
  calls_of accepting (is_key_toggled "CAPSLOCK") initial =
    [Call "GetKeyState" [AStr "CAPSLOCK"; AStr "T"]]
  /\ calls_of accepting (is_key_toggled ("CAPSLOC" ++ kelvin_sign)) initial =
    [Call "GetKeyState" [AStr ("CAPSLOC" ++ kelvin_sign); AStr "T"]].
Proof.
  split.
  - apply (proj1 (is_key_toggled_ignores_case "CAPSLOCK" accepting initial)).
    reflexivity.
  - apply (proj1 (is_key_toggled_ignores_case ("CAPSLOC" ++ kelvin_sign)
                    accepting initial)).
    reflexivity.
Defined.

Lemma option_str_mode (o : hotstring_options) (m1 m2 : option string) :
  Encoder.send_mode m1 = Encoder.send_mode m2 ->
  hotstring_option_str (with_mode m1 o) = hotstring_option_str (with_mode m2 o).
Proof.
  intro H. rewrite !hotstring_option_str_tokens.
  unfold Encoder.hotstring_tokens, with_mode. simpl. now rewrite H.
Qed.

(** X8.  The send mode of a hotstring is compared without regard to letter
    case, and a mode that is none of [input], [play], [event] is passed
    over: the option string is the one written with no mode at all. *)
Theorem hotstring_mode_matching :
  forall (o : hotstring_options) (m : string),
    hotstring_option_str (with_mode (Some (lower m)) o) =
    hotstring_option_str (with_mode (Some m) o)
    /\ (str_in (lower m) ["input"; "play"; "event"] = false ->
        hotstring_option_str (with_mode (Some m) o) =
        hotstring_option_str (with_mode None o)).
Proof.
  intros o m. split.
  - apply option_str_mode. simpl. now rewrite lower_idempotent.
  - intro H. apply option_str_mode. simpl in *.
    destruct (lower m =? "input"); [discriminate|].
    destruct (lower m =? "play"); [discriminate|].
    destruct (lower m =? "event"); [discriminate|reflexivity].
Qed.

Lemma hotstring_mode_matching_witness :
  hotstring_option_str (with_mode (Some "fast") hotstring_defaults) =
  hotstring_option_str (with_mode None hotstring_defaults).
Proof.
  apply (proj2 (hotstring_mode_matching hotstring_defaults "fast")). reflexivity.
Defined.

(** X9.  With [wait_for_end_char=False], [omit_end_char] has no effect on
    the option string of a hotstring. *)
Theorem hotstring_omit_end_char_masked :
  forall (o : hotstring_options) (b : option bool),
    wait_for_end_char o = Some false ->
    hotstring_option_str (with_omit_end_char b o) = hotstring_option_str o.
Proof.
  intros o b H. rewrite !hotstring_option_str_tokens.
  unfold Encoder.hotstring_tokens, with_omit_end_char. simpl. now rewrite H.
Qed.

Lemma hotstring_omit_end_char_masked_witness :
  hotstring_option_str
    (with_omit_end_char (Some true)
       (HotstringOptions (Some false) None None None None None None None None
                         None None None)) = "*".
Proof.
  rewrite hotstring_omit_end_char_masked; reflexivity.
Defined.

(* ================================================================== *)
(** ** Hotkey option strings can be read back *)
(* ================================================================== *)

Lemma span_num_clean (r : string) : clean r -> span_num r = ("", r).
Proof. destruct r as [|c r]; simpl; [reflexivity|]. now intros ->. Qed.

Lemma span_num_uint (u : Decimal.uint) (r : string) :
  clean r ->
  span_num (NilEmpty.string_of_uint u ++ r) = (NilEmpty.string_of_uint u, r).
Proof.
  intro Hr. induction u as [|u IH|u IH|u IH|u IH|u IH|u IH|u IH|u IH|u IH|u IH];
    simpl; try (rewrite IH; reflexivity).
  now apply span_num_clean.
Qed.

Lemma span_num_format_int (n : Z) (r : string) :
  clean r -> span_num (format_int n ++ r) = (format_int n, r).
Proof.
  intro Hr. unfold format_int, NilZero.string_of_int, NilZero.string_of_uint.
  destruct (Z.to_int n) as [u|u]; destruct u; simpl;
    rewrite ?span_num_uint by exact Hr; try reflexivity;
    now rewrite span_num_clean.
Qed.

Lemma parse_format_int (n : Z) : parse_int (format_int n) = Some n.
Proof.
  unfold parse_int, format_int. rewrite NilZero.isi.
  - simpl. now rewrite DecimalZ.of_to.
  - destruct n as [|p|p]; simpl; try discriminate.
    intros [= H]. exact (Unsigned.to_uint_nonnil p H).
  - destruct n as [|p|p]; simpl; try discriminate.
    intros [= H]. exact (Unsigned.to_uint_nonnil p H).
Qed.

Lemma read_number_here (letter : ascii) (n : Z) (r : string) :
  clean r ->
  read_number letter (String letter (format_int n ++ r)) = (Some n, r).
Proof.
  intro Hr. unfold read_number. rewrite Ascii.eqb_refl.
  now rewrite span_num_format_int, parse_format_int.
Qed.

Lemma append_empty (s : string) : (s ++ "")%string = s.
Proof. induction s as [|c s IH]; simpl; [reflexivity|now rewrite IH]. Qed.

Lemma read_number_none (letter : ascii) (r : string) :
  match r with String c _ => Ascii.eqb c letter = false | EmptyString => True end ->
  read_number letter r = (None, r).
Proof.
  destruct r as [|c r]; simpl; [reflexivity|]. now intros ->.
Qed.

Lemma read_number_str (letter : ascii) (n : option Z) (r : string) :
  clean r ->
  match r with String c _ => Ascii.eqb c letter = false | EmptyString => True end ->
  read_number letter (number_str letter n ++ r) = (n, r).
Proof.
  intros Hc Hl. destruct n as [n|]; simpl number_str.
  - now apply read_number_here.
  - now apply read_number_none.
Qed.

Lemma read_hotkey_options_option_str (o : hotkey_options) :
  read_hotkey_options (hotkey_option_str o) = o.
Proof.
  rewrite hotkey_option_str_tokens.
  destruct o as [b p t i].
  assert (E : Encoder.encode (Encoder.hotkey_tokens (HotkeyOptions b p t i)) =
             (Encoder.encode (Encoder.flag "B" "B0" b)
              ++ number_str "P" p ++ number_str "T" t ++ number_str "I" i ++ "")%string).
  { unfold Encoder.hotkey_tokens, Encoder.encode. simpl.
    destruct b as [[|]|], p, t, i; simpl; rewrite ?append_empty; reflexivity. }
  rewrite E. clear E.
  unfold read_hotkey_options.
  assert (Hb : read_buffer (Encoder.encode (Encoder.flag "B" "B0" b)
                 ++ number_str "P" p ++ number_str "T" t ++ number_str "I" i ++ "")
               = (b, (number_str "P" p ++ number_str "T" t ++ number_str "I" i ++ "")%string)).
  { destruct b as [[|]|]; simpl; try reflexivity;
      destruct p, t, i; reflexivity. }
  rewrite Hb.
  rewrite read_number_str; [|destruct t, i; simpl; exact I || reflexivity ..].
  rewrite read_number_str; [|destruct i; simpl; exact I || reflexivity ..].
  rewrite read_number_str; [|exact I ..].
  reflexivity.
Qed.

(** X10.  Two hotkey configurations with the same option string are the same
    configuration: unset, false and true, and set and unset numbers, are
    never written alike. *)
Theorem hotkey_option_str_injective :
  forall o1 o2 : hotkey_options,
    hotkey_option_str o1 = hotkey_option_str o2 -> o1 = o2.
Proof.
  intros o1 o2 H.
  rewrite <- (read_hotkey_options_option_str o1), H.
  apply read_hotkey_options_option_str.
Qed.

Lemma hotkey_option_str_injective_witness :
  HotkeyOptions (Some true) (Some 5%Z) (Some 2%Z) None = sample_options.
Proof.
  apply hotkey_option_str_injective. reflexivity.
Defined.

(* ================================================================== *)
(** ** A failing context *)
(* ================================================================== *)

(** X11.  If entering the context raises, [update] raises the same
    exception: the registration call and the calls of [_exit] are not sent,
    and the lock is given back. *)
Theorem update_aborts_when_enter_fails :
  forall (hash : BaseHotkeyContext -> Z) (d : dispatcher) (inv : invocation)
         (w : world) (e : exn),
    result_of d (_enter (context_of inv)) w = Raised e ->
    run d (program hash inv) w =
    (World (trace w ++ enter_calls (context_of inv)) (lock_depth w), Raised e).
Proof.
  intros hash d inv w e H. now rewrite program_guarded, run_guarded_call, H.
Qed.

Lemma update_aborts_when_enter_fails_witness :
  run no_context
      (program sample_hash (UpdateHotkey sample_hotkey (VFunc "cb") sample_options))
      initial =
  (World [Call "HotkeyContext" [AFun (wrapper always)]] 0,
   Raised (Error "no context")).
Proof.
  apply (update_aborts_when_enter_fails sample_hash no_context
           (UpdateHotkey sample_hotkey (VFunc "cb") sample_options) initial).
  reflexivity.
Defined.

(** X12.  If leaving the context raises, [update] raises that exception,
    whether the registration call returned or raised. *)
Theorem update_raises_what_exit_raises :
  forall (hash : BaseHotkeyContext -> Z) (d : dispatcher) (inv : invocation)
         (w : world) (e : exn),
    result_of d (_enter (context_of inv)) w = Returned tt ->
    result_of d (_exit (context_of inv))
              (World ((trace w ++ enter_calls (context_of inv))
                      ++ [registration hash inv]) (S (lock_depth w)))
    = Raised e ->
    result_of d (program hash inv) w = Raised e.
Proof.
  intros hash d inv w e Hin Hout.
  now rewrite program_guarded, result_of_guarded_call, Hin, Hout.
Qed.

Lemma update_raises_what_exit_raises_witness :
  result_of no_exit
    (program sample_hash (UpdateHotkey sample_hotkey (VFunc "cb") sample_options))
    initial = Raised (Error "no exit").
Proof.
  apply update_raises_what_exit_raises; reflexivity.
Defined.

(* ================================================================== *)
(** ** The lock, continued *)
(* ================================================================== *)

Section Holding.

Variable hash : BaseHotkeyContext -> Z.
Variable plans : list (list invocation).

Lemma caller_holds_lock (i : Threads.tid) (c : call)
      (k : outcome value -> prog unit) (s : Threads.state) :
  Threads.invariant hash plans s ->
  Threads.pool s i = Act (Ahk c) k ->
  Threads.owner s = Some (i, 1).
Proof.
  intros [Hfree Hheld _ _ _ _ _] Hi.
  destruct (Threads.owner s) as [[j n]|] eqn:Ho.
  - destruct (Hheld j n eq_refl) as (-> & _ & Hothers).
    destruct (Nat.eq_dec i j) as [->|Hne]; [reflexivity|].
    destruct (Hothers i Hne) as [H|H]; rewrite Hi in H; destruct H.
  - destruct (Hfree eq_refl i) as [H|H]; rewrite Hi in H; destruct H.
Qed.

Lemma holder_releases (o : Threads.tid) (p : prog unit) :
  Threads.inside p ->
  forall (s : Threads.state) (answers : nat -> outcome value),
    Threads.pool s o = p -> Threads.owner s = Some (o, 1) ->
    exists n, Threads.owner (Threads.exec hash plans (turns o answers n) s) = None.
Proof.
  induction p as [u|e|a k IH]; simpl; try contradiction.
  destruct a as [| |c]; try contradiction; intros Hin s answers Hp Ho.
  - exists 1. simpl. unfold Threads.step_thread. rewrite Hp, Ho.
    now rewrite Nat.eqb_refl.
  - destruct (IH (answers 0) (Hin (answers 0))
                 (Threads.step_thread hash plans o (answers 0) s)
                 (fun k => answers (S k))) as [n Hn].
    + unfold Threads.step_thread. rewrite Hp. simpl.
      apply ThreadsFacts.set_thread_same.
    + unfold Threads.step_thread. rewrite Hp. exact Ho.
    + exists (S n). exact Hn.
Qed.

End Holding.

(** X13.  In every state the threads can reach, the lock is held at most
    once -- its re-entrance is never used -- and a thread whose next move
    is an engine call is the thread that holds it. *)
Theorem lock_held_once_by_caller :
  forall (hash : BaseHotkeyContext -> Z) (plans : list (list invocation))
         (sch : Threads.schedule),
    let s := Threads.exec hash plans sch (Threads.spawn hash plans) in
    (forall o n, Threads.owner s = Some (o, n) -> n = 1)
    /\ (forall i c k, Threads.pool s i = Act (Ahk c) k ->
                      Threads.owner s = Some (i, 1)).
Proof.
  intros hash plans sch s.
  assert (Hinv : Threads.invariant hash plans s)
    by apply ThreadsFacts.exec_invariant, ThreadsFacts.spawn_invariant.
  split.
  - intros o n Ho. now destruct (Threads.inv_held _ _ _ Hinv o n Ho).
  - intros i c k Hp. exact (caller_holds_lock hash plans i c k s Hinv Hp).
Qed.

Lemma lock_held_once_by_caller_witness :
  Threads.owner (Threads.exec sample_hash sample_plans [(0, Returned VNone)]
                              (Threads.spawn sample_hash sample_plans))
  = Some (0, 1).
Proof.
  destruct (lock_held_once_by_caller sample_hash sample_plans
              [(0, Returned VNone)]) as [_ H].
  eapply H. reflexivity.
Defined.

(** X14.  Whoever holds the lock gives it back after finitely many moves
    of its own, whatever the engine answers and whatever the other threads
    were doing before. *)
Theorem lock_holder_releases :
  forall (hash : BaseHotkeyContext -> Z) (plans : list (list invocation))
         (sch : Threads.schedule) (o : Threads.tid) (n : nat)
         (answers : nat -> outcome value),
    let s := Threads.exec hash plans sch (Threads.spawn hash plans) in
    Threads.owner s = Some (o, n) ->
    exists m,
      Threads.owner (Threads.exec hash plans (turns o answers m) s) = None.
Proof.
  intros hash plans sch o n answers s Ho.
  assert (Hinv : Threads.invariant hash plans s)
    by apply ThreadsFacts.exec_invariant, ThreadsFacts.spawn_invariant.
  destruct (Threads.inv_held _ _ _ Hinv o n Ho) as (-> & Hin & _).
  now apply (holder_releases hash plans o _ Hin).
Qed.

Lemma lock_holder_releases_witness :
  exists m,
    Threads.owner
      (Threads.exec sample_hash sample_plans
         (turns 0 (fun _ => Raised (Error "rejected")) m)
         (Threads.exec sample_hash sample_plans [(0, Returned VNone)]
                       (Threads.spawn sample_hash sample_plans))) = None.
Proof.
  apply (lock_holder_releases sample_hash sample_plans [(0, Returned VNone)] 0 1).
  reflexivity.
Defined.

(* ================================================================== *)
(** ** Command line *)
(* ================================================================== *)

(** X15.  When [_parse_args] returns a tuple without the help flag, exactly
    one of module and file is set, and the command line after the program
    name and the quiet flag (if given) is the words naming the program
    followed by the rest, unchanged and in order. *)
Theorem parse_args_keeps_command_line :
  forall (argv : list string) (r : parsed_args),
    _parse_args argv = Some r -> pa_help r = false ->
    skipn (if pa_quiet r then 2 else 1) argv = program_words r ++ pa_rest r
    /\ (pa_module r = None <-> pa_file r <> None).
Proof.
  intros argv r H Hh. unfold _parse_args in H.
  destruct argv as [|a0 [|a1 args]]; try discriminate.
  cbn [length Nat.ltb Nat.leb skipn hd] in H.
  destruct (str_in a1 ["-h"; "--help"]).
  { injection H as <-. discriminate. }
  destruct (str_in a1 ["-q"; "--quiet"]).
  - cbn [skipn] in H. destruct args as [|a2 args]; try discriminate.
    cbn [length Nat.ltb Nat.leb hd] in H.
    destruct (String.eqb_spec a2 "-m") as [->|_].
    + destruct args as [|m rest]; try discriminate.
      injection H as <-. simpl. split; [reflexivity|]. split; congruence.
    + injection H as <-. simpl. split; [reflexivity|]. split; congruence.
  - cbn [length Nat.ltb Nat.leb hd] in H.
    destruct (String.eqb_spec a1 "-m") as [->|_].
    + destruct args as [|m rest]; try discriminate.
      injection H as <-. simpl. split; [reflexivity|]. split; congruence.
    + injection H as <-. simpl. split; [reflexivity|]. split; congruence.
Qed.

Lemma parse_args_keeps_command_line_witness :
  skipn 2 ["ahk"; "--quiet"; "-m"; "pkg.tool"; "-h"; "x"] =
  ["-m"; "pkg.tool"] ++ ["-h"; "x"].
Proof.
  apply (parse_args_keeps_command_line
           ["ahk"; "--quiet"; "-m"; "pkg.tool"; "-h"; "x"]
           (ParsedArgs false true (Some "pkg.tool") None ["-h"; "x"]));
    reflexivity.
Defined.

(** X16.  [_parse_args] returns nothing exactly when there is no argument,
    or nothing after the quiet flag, or nothing after [-m]; and it sets the
    help flag exactly when the first argument is [-h] or [--help], in which
    case every other argument is dropped. *)
Theorem parse_args_refusals_and_help :
  forall argv : list string,
    let args := skipn 1 argv in
    let after_quiet :=
      if str_in (hd "" args) ["-q"; "--quiet"] then skipn 1 args else args in
    (str_in (hd "" args) ["-h"; "--help"] = true ->
     _parse_args argv = Some (ParsedArgs true false None None []))
    /\ (str_in (hd "" args) ["-h"; "--help"] = false ->
        (_parse_args argv = None <-> after_quiet = [] \/ after_quiet = ["-m"])
        /\ forall r, _parse_args argv = Some r -> pa_help r = false).
Proof.
  intros argv args after_quiet. subst args after_quiet.
  unfold _parse_args.
  destruct argv as [|a0 [|a1 args]].
  - simpl. split; [discriminate|]. intros _. split; [|discriminate].
    split; auto.
  - simpl. split; [discriminate|]. intros _. split; [|discriminate].
    split; auto.
  - cbn [length Nat.ltb Nat.leb skipn hd].
    split; [intros ->; reflexivity|]. intros ->.
    destruct (str_in a1 ["-q"; "--quiet"]).
    + cbn [skipn]. destruct args as [|a2 args].
      * simpl. split; [|discriminate]. split; auto.
      * cbn [length Nat.ltb Nat.leb hd].
        destruct (String.eqb_spec a2 "-m") as [->|Hne].
        -- destruct args as [|m rest]; simpl.
           ++ split; [|discriminate]. split; auto.
           ++ split; [|now intros r [= <-]].
              split; [discriminate|]. intros [H|H]; discriminate.
        -- split; [|now intros r [= <-]].
           split; [discriminate|]. intros [H|H]; [discriminate|congruence].
    + cbn [length Nat.ltb Nat.leb hd].
      destruct (String.eqb_spec a1 "-m") as [->|Hne].
      * destruct args as [|m rest]; simpl.
        -- split; [|discriminate]. split; auto.
        -- split; [|now intros r [= <-]].
           split; [discriminate|]. intros [H|H]; discriminate.
      * split; [|now intros r [= <-]].
        split; [discriminate|]. intros [H|H]; [discriminate|congruence].
Qed.

Lemma parse_args_refusals_and_help_witness :
  _parse_args ["ahk"; "-h"; "script.py"] = Some (ParsedArgs true false None None [])
  /\ _parse_args ["ahk"; "-q"; "-m"] = None.
Proof.
  split.
  - apply (proj1 (parse_args_refusals_and_help ["ahk"; "-h"; "script.py"])).
    reflexivity.
  - apply (proj1 (proj2 (parse_args_refusals_and_help ["ahk"; "-q"; "-m"]) eq_refl)).
    right. reflexivity.
Defined.
